(** * EventEmitter: a shallow embedding of [src/EventEmitter.ts]

    The class keeps a plain JavaScript object [handlers] mapping event names
    to arrays of listener records, and a number [maxListeners].  Listener
    callbacks are foreign code: they are called synchronously by [emit] and
    may call back into the emitter.  The embedding therefore has

    - [Obj]: an own-property store with JavaScript's enumeration order;
    - [world]: the emitter's two fields, the js-logger sink, and the record of
      callback invocations;
    - [prog]: what a callback does when invoked, as a tree of calls into the
      emitter's public methods ending in a normal return or a throw;
    - [on], [once], [off], [emit], [listeners], [events]: the methods.

    [handlers] is created by [{}], so a property that it does not own is
    looked up on [Object.prototype]: [slot_of] answers with the own array,
    with the inherited member (constructor, toString, ...), or with
    [undefined].  An event identifier is a string or a number (the keys of
    the event map); a number reaches the property named by its decimal
    numeral, and is never [===] to a key listed by [Object.keys].  Numbers
    are integers below 10^21 in magnitude, which print as plain decimals. *)

From Stdlib Require Import List String Ascii ZArith NArith Bool Lia Arith.
From Stdlib Require Import DecimalString.
Import ListNotations.
Local Open Scope string_scope.
Local Open Scope list_scope.

Set Implicit Arguments.

(** ** Own-property store *)

Module Obj.

(** An array index is a canonical decimal numeral below 2^32 - 1; objects
    enumerate such keys first, in ascending numeric order, and all other
    string keys afterwards in creation order. *)
Definition digit_of (c : ascii) : option N :=
  let n := N_of_ascii c in
  if (48 <=? n)%N && (n <=? 57)%N then Some (n - 48)%N else None.

Fixpoint digits_value (s : string) (acc : N) : option N :=
  match s with
  | EmptyString => Some acc
  | String c r =>
      match digit_of c with
      | Some d => digits_value r (acc * 10 + d)%N
      | None => None
      end
  end.

Definition array_index (s : string) : option N :=
  match s with
  | EmptyString => None
  | String c r =>
      if Ascii.eqb c "0"%char && negb (String.eqb r EmptyString) then None
      else match digits_value s 0 with
           | Some n => if (n <=? 4294967294)%N then Some n else None
           | None => None
           end
  end.

Section Store.
Variable V : Type.

Definition t := list (string * V).

Definition empty : t := [].

(** [o[k]]: [None] stands for [undefined]. *)
Fixpoint get (k : string) (o : t) : option V :=
  match o with
  | [] => None
  | (k', v) :: r => if String.eqb k k' then Some v else get k r
  end.

(** [Object.keys(o)] *)
Definition keys (o : t) : list string := map fst o.

(** Assignment to a property that exists keeps its place. *)
Fixpoint replace (k : string) (v : V) (o : t) : t :=
  match o with
  | [] => []
  | (k', v') :: r =>
      if String.eqb k k' then (k', v) :: r else (k', v') :: replace k v r
  end.

Fixpoint place_index (n : N) (k : string) (v : V) (o : t) : t :=
  match o with
  | [] => [(k, v)]
  | (k', v') :: r =>
      match array_index k' with
      | Some m => if (m <? n)%N then (k', v') :: place_index n k v r
                  else (k, v) :: o
      | None => (k, v) :: o
      end
  end.

(** Creation of a property. *)
Definition define (k : string) (v : V) (o : t) : t :=
  match array_index k with
  | Some n => place_index n k v o
  | None => o ++ [(k, v)]
  end.

(** [o[k] = v] *)
Definition set (k : string) (v : V) (o : t) : t :=
  match get k o with
  | Some _ => replace k v o
  | None => define k v o
  end.

(** [delete o[k]] *)
Definition delete (k : string) (o : t) : t :=
  filter (fun kv => negb (String.eqb k (fst kv))) o.

End Store.

End Obj.


(** ** Data model *)

(** Callbacks are compared by reference ([===]); a reference is a number. *)
Definition cb := nat.

(** The values passed as arguments and thrown as errors. *)
Inductive value : Type :=
| VUndefined
| VNumber (n : Z)
| VString (s : string)
| VError (message : string).

Definition payload := list value.

(** [EventListener.ts] *)
Record EventListener : Type := mkListener {
  listener : cb;
  persistent : bool
}.

(** What reaches the js-logger instance [log]. *)
Inductive log_entry : Type :=
| LogWarn (message : string)
| LogError (error : value).

Record world : Type := mkWorld {
  handlers : Obj.t (list EventListener);
  maxListeners : Z;
  log : list log_entry;
  calls : list (cb * payload)
}.

Definition with_handlers (f : Obj.t (list EventListener) -> Obj.t (list EventListener))
    (w : world) : world :=
  mkWorld (f (handlers w)) (maxListeners w) (log w) (calls w).

Definition log_warn (message : string) (w : world) : world :=
  mkWorld (handlers w) (maxListeners w) (log w ++ [LogWarn message]) (calls w).

Definition log_error (error : value) (w : world) : world :=
  mkWorld (handlers w) (maxListeners w) (log w ++ [LogError error]) (calls w).

Definition record_call (c : cb) (args : payload) (w : world) : world :=
  mkWorld (handlers w) (maxListeners w) (log w) (calls w ++ [(c, args)]).

(** [constructor(maxListeners?)]: [maxListeners || 10]. *)
Definition new_EventEmitter (maxListeners : option Z) : world :=
  mkWorld (Obj.empty _)
          (match maxListeners with
           | Some n => if (n =? 0)%Z then 10%Z else n
           | None => 10%Z
           end)
          [] [].

(** The result of a call that may throw; [OutOfFuel] is the model running
    out of steps, it is no behaviour of the program. *)
Inductive outcome (A : Type) : Type :=
| Returned (a : A) (w : world)
| Threw (error : value) (w : world)
| OutOfFuel.

Arguments Returned {A} a w.
Arguments Threw {A} error w.
Arguments OutOfFuel {A}.

(** Reading a property of [undefined]. *)
Definition type_error (property : string) : value :=
  VError ("TypeError: Cannot read properties of undefined (reading '" ++ property ++ "')").

(** Calling an array method on a value that has none. *)
Definition not_a_function (method : string) : value :=
  VError ("TypeError: this.handlers[event]." ++ method ++ " is not a function").

(** Spreading a value that is no iterable. *)
Definition not_iterable : value :=
  VError "TypeError: (this.handlers[event] || []) is not iterable".

Definition number_to_string (n : Z) : string :=
  NilZero.string_of_int (Z.to_int n).

(** ** Event identifiers *)

(** [keyof MAP] for [MAP extends { [key: string]: ... }]: a string or a
    number. *)
Inductive identifier : Type :=
| Name (s : string)
| Index (n : Z).

Coercion Name : string >-> identifier.

(** The property that [this.handlers[event]] reaches. *)
Definition property_key (event : identifier) : string :=
  match event with
  | Name s => s
  | Index n => number_to_string n
  end.

(** [item === event] for an [item] of [Object.keys]: a string is never
    strictly equal to a number. *)
Definition same_name (item : string) (event : identifier) : bool :=
  match event with
  | Name s => String.eqb item s
  | Index _ => false
  end.

(** ** What [handlers] inherits *)

(** A member of [Object.prototype], as far as the class looks at it: a
    function with its [length], or, for [__proto__], the prototype object,
    which has no [length].  Neither has [push], [unshift] or [filter], and
    neither is iterable. *)
Inductive inherited : Type :=
| InheritedFunction (length : Z)
| InheritedObject.

Definition object_prototype (key : string) : option inherited :=
  if String.eqb key "constructor" then Some (InheritedFunction 1)
  else if String.eqb key "hasOwnProperty" then Some (InheritedFunction 1)
  else if String.eqb key "isPrototypeOf" then Some (InheritedFunction 1)
  else if String.eqb key "propertyIsEnumerable" then Some (InheritedFunction 1)
  else if String.eqb key "toLocaleString" then Some (InheritedFunction 0)
  else if String.eqb key "toString" then Some (InheritedFunction 0)
  else if String.eqb key "valueOf" then Some (InheritedFunction 0)
  else if String.eqb key "__defineGetter__" then Some (InheritedFunction 2)
  else if String.eqb key "__defineSetter__" then Some (InheritedFunction 2)
  else if String.eqb key "__lookupGetter__" then Some (InheritedFunction 1)
  else if String.eqb key "__lookupSetter__" then Some (InheritedFunction 1)
  else if String.eqb key "__proto__" then Some InheritedObject
  else None.

(** [this.handlers[key]] *)
Inductive slot : Type :=
| IsArray (hs : list EventListener)
| IsInherited (v : inherited)
| IsUndefined.

Definition slot_of (key : string) (w : world) : slot :=
  match Obj.get key (handlers w) with
  | Some hs => IsArray hs
  | None =>
      match object_prototype key with
      | Some v => IsInherited v
      | None => IsUndefined
      end
  end.

(** The array that [handlers] owns under [key], empty when it owns none. *)
Definition current (key : string) (w : world) : list EventListener :=
  match Obj.get key (handlers w) with
  | Some hs => hs
  | None => []
  end.

(** ** Registration *)

Definition exceeded_message (max : Z) : string :=
  "exceeded maximum (" ++ number_to_string max ++ ") number of listeners".

(** [if (this.handlers[event] == null) this.handlers[event] = [];] *)
Definition ensure (key : string) (w : world) : world :=
  match Obj.get key (handlers w) with
  | None => with_handlers (Obj.set key []) w
  | Some _ => w
  end.

(** [unshift] when [prepend] is truthy, [push] otherwise. *)
Definition insert (prepend : bool) (h : EventListener) (hs : list EventListener)
    : list EventListener :=
  if prepend then h :: hs else hs ++ [h].

(** The body of [on] where [this.handlers[event]] is an array or
    [undefined]. *)
Definition on_array (key : string) (l : cb) (prepend : bool) (w : world) : world :=
  let w1 := ensure key w in
  let w2 := if (maxListeners w1 <=? Z.of_nat (List.length (current key w1)))%Z
            then log_warn (exceeded_message (maxListeners w1)) w1
            else w1 in
  with_handlers (Obj.set key (insert prepend (mkListener l true) (current key w2))) w2.

(** The same for [once], which has no test of the length. *)
Definition once_array (key : string) (l : cb) (prepend : bool) (w : world) : world :=
  let w1 := ensure key w in
  with_handlers (Obj.set key (insert prepend (mkListener l false) (current key w1))) w1.

(** The test [this.handlers[event].length >= this.maxListeners] where
    [this.handlers[event]] is inherited: [undefined >= n] is false. *)
Definition warn_inherited (v : inherited) (w : world) : world :=
  match v with
  | InheritedFunction n =>
      if (maxListeners w <=? n)%Z
      then log_warn (exceeded_message (maxListeners w)) w
      else w
  | InheritedObject => w
  end.

(** [on]: an inherited member is not [null], so no array is made for it, and
    it has no [push] or [unshift]. *)
Definition on (event : identifier) (l : cb) (prepend : bool) (w : world)
    : outcome unit :=
  match slot_of (property_key event) w with
  | IsInherited v =>
      Threw (not_a_function (if prepend then "unshift" else "push"))
            (warn_inherited v w)
  | _ => Returned tt (on_array (property_key event) l prepend w)
  end.

Definition once (event : identifier) (l : cb) (prepend : bool) (w : world)
    : outcome unit :=
  match slot_of (property_key event) w with
  | IsInherited _ =>
      Threw (not_a_function (if prepend then "unshift" else "push")) w
  | _ => Returned tt (once_array (property_key event) l prepend w)
  end.

(** [listeners(event)]: [[...(this.handlers[event] || [])].map(...)] *)
Definition listeners (event : identifier) (w : world) : outcome (list cb) :=
  match slot_of (property_key event) w with
  | IsArray hs => Returned (map listener hs) w
  | IsInherited _ => Threw not_iterable w
  | IsUndefined => Returned [] w
  end.

(** [events()] *)
Definition events (w : world) : list string := Obj.keys (handlers w).

(** ** Removal *)

(** [hs.findIndex((handler) => handler.listener === l)], [None] for -1. *)
Fixpoint findIndex (l : cb) (hs : list EventListener) : option nat :=
  match hs with
  | [] => None
  | h :: r => if Nat.eqb (listener h) l then Some 0
              else option_map S (findIndex l r)
  end.

(** [hs.splice(index, 1)] *)
Definition splice (index : nat) (hs : list EventListener) : list EventListener :=
  firstn index hs ++ skipn (S index) hs.

(** The [for] loop of [off] over the filtered copy of [events()].  The
    names come from [Object.keys], so [this.handlers[ev]] is an own property
    when the loop gets to it; the loop deletes no key that it has yet to
    visit. *)
Fixpoint off_loop (evs : list string) (l : option cb) (w : world) : outcome unit :=
  match evs with
  | [] => Returned tt w
  | ev :: rest =>
      match l with
      | None => off_loop rest l (with_handlers (Obj.delete ev) w)
      | Some f =>
          match Obj.get ev (handlers w) with
          | None => Threw (type_error "length") w
          | Some hs =>
              if Nat.eqb (List.length hs) 0
              then off_loop rest l (with_handlers (Obj.delete ev) w)
              else
                match findIndex f hs with
                | Some index =>
                    let hs' := splice index hs in
                    let w1 := with_handlers (Obj.set ev hs') w in
                    Returned tt (if Nat.eqb (List.length hs') 0
                                 then with_handlers (Obj.delete ev) w1
                                 else w1)
                | None => off_loop rest l w
                end
          end
      end
  end.

Definition off (event : option identifier) (l : option cb) (w : world)
    : outcome unit :=
  off_loop
    (filter (fun item => match event with
                         | None => true
                         | Some e => same_name item e
                         end) (events w))
    l w.

(** ** Callbacks *)

(** What a nested [emit] hands back to the callback that called it. *)
Inductive emit_result : Type :=
| EmitReturned (b : bool)
| EmitThrew (error : value).

(** The body of a callback, as far as the emitter can tell: the calls it
    makes on the emitter, each followed by the rest of the body, which may
    depend on what the call returned.  What [on], [once], [off] or
    [listeners] throw is not caught by the body. *)
Inductive prog : Type :=
| Return
| Throw (error : value)
| CallOn (event : identifier) (l : cb) (prepend : bool) (k : prog)
| CallOnce (event : identifier) (l : cb) (prepend : bool) (k : prog)
| CallOff (event : option identifier) (l : option cb) (k : prog)
| CallEmit (event : identifier) (args : payload) (k : emit_result -> prog)
| CallListeners (event : identifier) (k : list cb -> prog)
| CallEvents (k : list string -> prog).

(** ** Dispatch *)

(** [count] reports of [error] to [log.error]. *)
Fixpoint log_errors (count : nat) (error : value) (w : world) : world :=
  match count with
  | 0 => w
  | S n => log_errors n error (log_error error w)
  end.

(** The rounds that the loop of [emit] still makes from index [i] over an
    inherited member: one for each index below its [length], none where
    [length] is [undefined]. *)
Definition inherited_rounds (v : inherited) (i : nat) : nat :=
  match v with
  | InheritedFunction n => Z.to_nat n - i
  | InheritedObject => 0
  end.

Section Dispatch.

(** The body run when callback [c] is invoked with [args]. *)
Variable behaviour : cb -> payload -> prog.

Section Exec.

Variable emit_rec : identifier -> payload -> world -> outcome bool.

Fixpoint exec (p : prog) (w : world) : outcome unit :=
  match p with
  | Return => Returned tt w
  | Throw error => Threw error w
  | CallOn event l prepend k =>
      match on event l prepend w with
      | Returned _ w' => exec k w'
      | Threw error w' => Threw error w'
      | OutOfFuel => OutOfFuel
      end
  | CallOnce event l prepend k =>
      match once event l prepend w with
      | Returned _ w' => exec k w'
      | Threw error w' => Threw error w'
      | OutOfFuel => OutOfFuel
      end
  | CallOff event l k =>
      match off event l w with
      | Returned _ w' => exec k w'
      | Threw error w' => Threw error w'
      | OutOfFuel => OutOfFuel
      end
  | CallEmit event args k =>
      match emit_rec event args w with
      | Returned b w' => exec (k (EmitReturned b)) w'
      | Threw error w' => exec (k (EmitThrew error)) w'
      | OutOfFuel => OutOfFuel
      end
  | CallListeners event k =>
      match listeners event w with
      | Returned cbs w' => exec (k cbs) w'
      | Threw error w' => Threw error w'
      | OutOfFuel => OutOfFuel
      end
  | CallEvents k => exec (k (events w)) w
  end.

(** [for (let i = 0; i < this.handlers[event].length; i++) { try { ... }
    catch (error) { log.error(error); } }], entered at index [i]: the
    condition reads [this.handlers[event]] anew on every round.  Over an
    inherited member no callback runs: every round reads [listener] of
    [undefined] inside the [try], which is caught and logged, so the rounds
    that are left are taken in one step. *)
Fixpoint dispatch (steps : nat) (event : identifier) (args : payload) (i : nat)
    (w : world) : outcome unit :=
  match steps with
  | 0 => OutOfFuel
  | S steps' =>
      match slot_of (property_key event) w with
      | IsUndefined => Threw (type_error "length") w
      | IsInherited v =>
          Returned tt (log_errors (inherited_rounds v i) (type_error "listener") w)
      | IsArray hs =>
          match nth_error hs i with
          | None => Returned tt w
          | Some h =>
              match exec (behaviour (listener h) args)
                         (record_call (listener h) args w) with
              | Returned _ w' => dispatch steps' event args (S i) w'
              | Threw error w' => dispatch steps' event args (S i) (log_error error w')
              | OutOfFuel => OutOfFuel
              end
          end
      end
  end.

(** [this.handlers[event] == null || this.handlers[event].length === 0] *)
Definition nothing_to_call (s : slot) : bool :=
  match s with
  | IsUndefined => true
  | IsArray hs => Nat.eqb (List.length hs) 0
  | IsInherited (InheritedFunction n) => (n =? 0)%Z
  | IsInherited InheritedObject => false
  end.

(** The body of [emit]; [emit_rec] stands for the calls of [emit] that the
    callbacks make. *)
Definition emit_body (steps : nat) (event : identifier) (args : payload) (w : world)
    : outcome bool :=
  if nothing_to_call (slot_of (property_key event) w) then Returned false w
  else
    match dispatch steps event args 0 w with
    | Returned _ w1 =>
        match slot_of (property_key event) w1 with
        | IsUndefined => Threw (type_error "filter") w1
        | IsInherited _ => Threw (not_a_function "filter") w1
        | IsArray hs1 =>
            let kept := filter persistent hs1 in
            let w2 := with_handlers (Obj.set (property_key event) kept) w1 in
            Returned true (if Nat.eqb (List.length kept) 0
                           then with_handlers (Obj.delete (property_key event)) w2
                           else w2)
        end
    | Threw error w1 => Threw error w1
    | OutOfFuel => OutOfFuel
    end.

End Exec.

(** [emit], with [fuel] bounding both the rounds of each loop and the depth
    of the calls of [emit] made from inside callbacks. *)
Fixpoint emit (fuel : nat) (event : identifier) (args : payload) (w : world)
    : outcome bool :=
  match fuel with
  | 0 => emit_body (fun _ _ _ => OutOfFuel) 0 event args w
  | S fuel' => emit_body (emit fuel') fuel event args w
  end.

End Dispatch.

(** ** Vocabulary of the statements *)

(** One call of [on] or [once] on a given event. *)
Record registration : Type := mkRegistration {
  one_shot : bool;
  callback : cb;
  at_head : bool
}.

(** The record that registration [r] makes. *)
Definition record_of (r : registration) : EventListener :=
  mkListener (callback r) (negb (one_shot r)).

Definition register (event : identifier) (r : registration) (w : world)
    : outcome unit :=
  if one_shot r then once event (callback r) (at_head r) w
  else on event (callback r) (at_head r) w.

(** A run of registrations under one event, up to the first that throws. *)
Fixpoint register_all (event : identifier) (rs : list registration) (w : world)
    : outcome unit :=
  match rs with
  | [] => Returned tt w
  | r :: rs' =>
      match register event r w with
      | Returned _ w' => register_all event rs' w'
      | Threw error w' => Threw error w'
      | OutOfFuel => OutOfFuel
      end
  end.

(** The same where the event's property is an array or [undefined]. *)
Definition register_array (key : string) (r : registration) (w : world) : world :=
  if one_shot r then once_array key (callback r) (at_head r) w
  else on_array key (callback r) (at_head r) w.

Definition register_all_array (key : string) (rs : list registration) (w : world)
    : world :=
  fold_left (fun w r => register_array key r w) rs w.

(** [key] names no member of [Object.prototype]. *)
Definition plain (key : string) : Prop := object_prototype key = None.

(** [handlers] owns no property that [Object.prototype] defines. *)
Definition own_plain (w : world) : Prop :=
  forall key, In key (events w) -> plain key.

(** The callbacks of the records that [handlers] owns under [key]. *)
Definition callbacks (key : string) (w : world) : list cb :=
  map listener (current key w).

(** [listeners(event)] returns a callback. *)
Definition has_listener (event : identifier) (w : world) : bool :=
  match listeners event w with
  | Returned (_ :: _) _ => true
  | _ => false
  end.

(** An array without its first record, in the order of the array, of
    callback [l]. *)
Fixpoint remove_first (l : cb) (hs : list EventListener) : list EventListener :=
  match hs with
  | [] => []
  | h :: r => if Nat.eqb (listener h) l then r else h :: remove_first l r
  end.

(** No key of [handlers] holds an empty array. *)
Definition no_empty_entry (w : world) : Prop :=
  Forall (fun kv => snd kv <> []) (handlers w).

(** The keys of [handlers] are pairwise distinct, as an object's are. *)
Definition unique_keys (w : world) : Prop := NoDup (events w).

Definition registry_ok (w : world) : Prop := unique_keys w /\ no_empty_entry w.

Definition outcome_ok (A : Type) (r : outcome A) : Prop :=
  match r with
  | Returned _ w => registry_ok w
  | Threw _ w => registry_ok w
  | OutOfFuel => True
  end.

(** The entry that calling record [h] with [args] leaves in [calls]. *)
Definition invocation (args : payload) (h : EventListener) : cb * payload :=
  (listener h, args).

(** A body that makes no call on the emitter: it returns or throws. *)
Definition quiet (p : prog) : bool :=
  match p with
  | Return => true
  | Throw _ => true
  | _ => false
  end.

(** What [emit] reports for a quiet body. *)
Definition fault (p : prog) : list log_entry :=
  match p with
  | Throw error => [LogError error]
  | _ => []
  end.

(** A body whose only calls are [on] and [once] on [event] without
    [prepend]: the records it puts at the tail of that event's array. *)
Fixpoint appended (event : string) (p : prog) : option (list EventListener) :=
  match p with
  | Return => Some []
  | Throw _ => Some []
  | CallOn ev l false k =>
      if String.eqb (property_key ev) event
      then option_map (cons (mkListener l true)) (appended event k)
      else None
  | CallOnce ev l false k =>
      if String.eqb (property_key ev) event
      then option_map (cons (mkListener l false)) (appended event k)
      else None
  | _ => None
  end.

Definition added (behaviour : cb -> payload -> prog) (event : string)
    (args : payload) (h : EventListener) : list EventListener :=
  match appended event (behaviour (listener h) args) with
  | Some regs => regs
  | None => []
  end.

(** Every record of [hs] has a body that only appends to [event], and the
    callbacks it appends are quiet. *)
Definition appends_quiet (behaviour : cb -> payload -> prog) (event : string)
    (args : payload) (hs : list EventListener) : Prop :=
  forall h, In h hs ->
    exists regs, appended event (behaviour (listener h) args) = Some regs /\
                 forall r, In r regs -> quiet (behaviour (listener r) args) = true.

Definition all_quiet (behaviour : cb -> payload -> prog) (args : payload)
    (hs : list EventListener) : Prop :=
  forall h, In h hs -> quiet (behaviour (listener h) args) = true.

(** What [emit] reports while calling the quiet records [hs] in turn. *)
Definition faults (behaviour : cb -> payload -> prog) (args : payload)
    (hs : list EventListener) : list log_entry :=
  flat_map (fun h => fault (behaviour (listener h) args)) hs.

(** ** Sample callbacks *)

(** Callback 0 registers callback 1 on "EVENT" with [on]; every other
    callback returns at once. *)
Definition registers_another : cb -> payload -> prog :=
  fun c _ =>
    match c with
    | 0 => CallOn "EVENT" 1 false Return
    | _ => Return
    end.

(** Callback 0 registers callback 1 on "EVENT" with [once]. *)
Definition registers_one_shot : cb -> payload -> prog :=
  fun c _ =>
    match c with
    | 0 => CallOnce "EVENT" 1 false Return
    | _ => Return
    end.

(** Callback 1 throws, every other callback returns. *)
Definition second_throws : cb -> payload -> prog :=
  fun c _ =>
    match c with
    | 1 => Throw (VError "boom")
    | _ => Return
    end.

(** Every callback returns at once. *)
Definition all_return : cb -> payload -> prog := fun _ _ => Return.

(** Callback 0 removes itself from "EVENT" with [off]. *)
Definition removes_itself : cb -> payload -> prog :=
  fun c _ =>
    match c with
    | 0 => CallOff (Some (Name "EVENT")) (Some 0) Return
    | _ => Return
    end.

(** Callback 0 removes every listener of "EVENT" with [off]. *)
Definition clears_event : cb -> payload -> prog :=
  fun c _ =>
    match c with
    | 0 => CallOff (Some (Name "EVENT")) None Return
    | _ => Return
    end.

(** Callback [cb] has a record under [ev]. *)
Definition registered (cb0 : cb) (w : world) (ev : string) : bool :=
  existsb (fun h => Nat.eqb (listener h) cb0) (current ev w).

(** The events that a call of [off] goes through: [events()] filtered by
    the [event] argument. *)
Definition scope (event : option identifier) (w : world) : list string :=
  filter (fun item => match event with
                      | None => true
                      | Some e => same_name item e
                      end) (events w).

(** [this.handlers[ev] = hs] followed by the test of [length === 0] and
    [delete this.handlers[ev]], as at the end of [off] and of [emit]. *)
Definition assign (ev : string) (hs : list EventListener) (w : world) : world :=
  if Nat.eqb (List.length hs) 0
  then with_handlers (Obj.delete ev) (with_handlers (Obj.set ev hs) w)
  else with_handlers (Obj.set ev hs) w.

(** [P] holds of the world in which a call ended, by a return or a throw. *)
Definition outcome_has (A : Type) (P : world -> Prop) (r : outcome A) : Prop :=
  match r with
  | Returned _ w => P w
  | Threw _ w => P w
  | OutOfFuel => True
  end.

(** The world once [emit] has called the quiet records [hs] from [w]. *)
Definition after_quiet (behaviour : cb -> payload -> prog) (args : payload)
    (hs : list EventListener) (w : world) : world :=
  mkWorld (handlers w) (maxListeners w)
          (log w ++ faults behaviour args hs)
          (calls w ++ map (invocation args) hs).

(** Callback 0 puts callback 1 at the head of "EVENT" with [on]. *)
Definition prepends_another : cb -> payload -> prog :=
  fun c _ =>
    match c with
    | 0 => CallOn "EVENT" 1 true Return
    | _ => Return
    end.

(** Callback 0 emits "OTHER_EVENT" and returns whatever comes of it. *)
Definition emits_other : cb -> payload -> prog :=
  fun c _ =>
    match c with
    | 0 => CallEmit "OTHER_EVENT" [VString "nested"] (fun _ => Return)
    | _ => Return
    end.

(** The world in which the loop of [emit] goes on when a callback whose last
    part is the quiet body [k] has ended in [w]: what [k] throws is logged. *)
Definition settle (k : prog) (w : world) : world :=
  match k with
  | Throw error => log_error error w
  | _ => w
  end.

(** Callback 0 removes itself from "EVENT" with [off] and throws. *)
Definition removes_itself_and_throws : cb -> payload -> prog :=
  fun c _ =>
    match c with
    | 0 => CallOff (Some (Name "EVENT")) (Some 0) (Throw (VError "boom"))
    | _ => Return
    end.


(** * Properties *)

(** ** The store behaves as a finite map with unique keys *)

Module ObjFacts.

Section Facts.
Variable V : Type.
Implicit Types (o : Obj.t V) (k : string) (v : V).

Lemma get_None_keys k o : Obj.get k o = None <-> ~ In k (Obj.keys o).
Proof.
  induction o as [|[k' v'] r IH]; simpl.
  - tauto.
  - destruct (String.eqb_spec k k') as [->|Hne].
    + split; [discriminate | intros H; exfalso; apply H; now left].
    + rewrite IH. split.
      * intros H [E|I]; [congruence | tauto].
      * intros H I. apply H. now right.
Qed.

Lemma get_Some_In k v o : Obj.get k o = Some v -> In (k, v) o.
Proof.
  induction o as [|[k' v'] r IH]; simpl; [discriminate|].
  destruct (String.eqb_spec k k') as [->|Hne].
  - intros [= ->]. now left.
  - intros H. right. auto.
Qed.

Lemma get_replace_same k v x o :
  Obj.get k o = Some x -> Obj.get k (Obj.replace k v o) = Some v.
Proof.
  induction o as [|[k' v'] r IH]; simpl; [discriminate|].
  destruct (String.eqb_spec k k') as [->|Hne]; simpl.
  - now rewrite String.eqb_refl.
  - destruct (String.eqb_spec k k'); [contradiction | auto].
Qed.

Lemma get_replace_other k k' v o :
  k' <> k -> Obj.get k' (Obj.replace k v o) = Obj.get k' o.
Proof.
  intros Hne. induction o as [|[k0 v0] r IH]; simpl; [reflexivity|].
  destruct (String.eqb_spec k k0) as [->|Hne0]; simpl.
  - destruct (String.eqb_spec k' k0); [contradiction | reflexivity].
  - now rewrite IH.
Qed.

Lemma keys_replace k v o : Obj.keys (Obj.replace k v o) = Obj.keys o.
Proof.
  induction o as [|[k0 v0] r IH]; simpl; [reflexivity|].
  destruct (String.eqb k k0); simpl; [reflexivity | now rewrite IH].
Qed.

Lemma In_replace k v o x : In x (Obj.replace k v o) -> x = (k, v) \/ In x o.
Proof.
  induction o as [|[k0 v0] r IH]; simpl; [tauto|].
  destruct (String.eqb_spec k k0) as [->|Hne]; simpl.
  - intros [<-|I]; auto.
  - intros [<-|I]; auto. destruct (IH I); auto.
Qed.

Lemma get_place_same n k v o :
  Obj.get k o = None -> Obj.get k (Obj.place_index n k v o) = Some v.
Proof.
  induction o as [|[k0 v0] r IH]; simpl.
  - now rewrite String.eqb_refl.
  - destruct (String.eqb_spec k k0) as [->|Hne]; [discriminate|]. intros H.
    destruct (Obj.array_index k0) as [m|]; [destruct (m <? n)%N|]; simpl;
      rewrite ?String.eqb_refl; auto.
    destruct (String.eqb_spec k k0); [contradiction | auto].
Qed.

Lemma get_place_other n k k' v o :
  k' <> k -> Obj.get k' (Obj.place_index n k v o) = Obj.get k' o.
Proof.
  intros Hne. induction o as [|[k0 v0] r IH]; simpl.
  - destruct (String.eqb_spec k' k); [contradiction | reflexivity].
  - destruct (Obj.array_index k0) as [m|]; [destruct (m <? n)%N|]; simpl.
    + now rewrite IH.
    + destruct (String.eqb_spec k' k); [contradiction | reflexivity].
    + destruct (String.eqb_spec k' k); [contradiction | reflexivity].
Qed.

Lemma In_place n k v o x :
  In x (Obj.place_index n k v o) <-> x = (k, v) \/ In x o.
Proof.
  induction o as [|[k0 v0] r IH]; simpl.
  - intuition.
  - destruct (Obj.array_index k0) as [m|]; [destruct (m <? n)%N|]; simpl;
      rewrite ?IH; intuition.
Qed.

Lemma NoDup_keys_place n k v o :
  ~ In k (Obj.keys o) -> NoDup (Obj.keys o) ->
  NoDup (Obj.keys (Obj.place_index n k v o)).
Proof.
  induction o as [|[k0 v0] r IH]; simpl; intros Hk Hnd.
  - constructor; [tauto | constructor].
  - destruct (Obj.array_index k0) as [m|]; [destruct (m <? n)%N|]; simpl.
    + inversion Hnd; subst. constructor.
      * unfold Obj.keys. rewrite in_map_iff. intros [[k1 v1] [E I]]. simpl in E. subst k1.
        apply In_place in I. destruct I as [[= -> ->]|I]; [tauto|].
        apply H1. change k0 with (fst (k0, v1)). now apply in_map.
      * apply IH; tauto.
    + constructor; [exact Hk | exact Hnd].
    + constructor; [exact Hk | exact Hnd].
Qed.

Lemma get_app_None k o o' :
  Obj.get k o = None -> Obj.get k (o ++ o') = Obj.get k o'.
Proof.
  induction o as [|[k0 v0] r IH]; simpl; [reflexivity|].
  destruct (String.eqb k k0); [discriminate | auto].
Qed.

Lemma get_app_Some k x o o' :
  Obj.get k o = Some x -> Obj.get k (o ++ o') = Some x.
Proof.
  induction o as [|[k0 v0] r IH]; simpl; [discriminate|].
  destruct (String.eqb k k0); auto.
Qed.

Lemma get_define_same k v o :
  Obj.get k o = None -> Obj.get k (Obj.define k v o) = Some v.
Proof.
  intros H. unfold Obj.define. destruct (Obj.array_index k).
  - now apply get_place_same.
  - rewrite get_app_None by exact H. simpl. now rewrite String.eqb_refl.
Qed.

Lemma get_define_other k k' v o :
  k' <> k -> Obj.get k' (Obj.define k v o) = Obj.get k' o.
Proof.
  intros Hne. unfold Obj.define. destruct (Obj.array_index k).
  - now apply get_place_other.
  - destruct (Obj.get k' o) as [x|] eqn:E.
    + now apply get_app_Some.
    + rewrite get_app_None by exact E. simpl.
      destruct (String.eqb_spec k' k); [contradiction | reflexivity].
Qed.

Lemma In_define k v o x : In x (Obj.define k v o) <-> x = (k, v) \/ In x o.
Proof.
  unfold Obj.define. destruct (Obj.array_index k).
  - apply In_place.
  - rewrite in_app_iff. simpl. intuition.
Qed.

Lemma NoDup_keys_define k v o :
  ~ In k (Obj.keys o) -> NoDup (Obj.keys o) -> NoDup (Obj.keys (Obj.define k v o)).
Proof.
  intros Hk Hnd. unfold Obj.define. destruct (Obj.array_index k).
  - now apply NoDup_keys_place.
  - unfold Obj.keys. rewrite map_app. simpl.
    apply NoDup_app; [exact Hnd | constructor; [simpl; tauto | constructor] |].
    intros x Hx [<-|[]]. contradiction.
Qed.

Lemma get_set_same k v o : Obj.get k (Obj.set k v o) = Some v.
Proof.
  unfold Obj.set. destruct (Obj.get k o) eqn:E.
  - eapply get_replace_same; eauto.
  - now apply get_define_same.
Qed.

Lemma get_set_other k k' v o : k' <> k -> Obj.get k' (Obj.set k v o) = Obj.get k' o.
Proof.
  intros Hne. unfold Obj.set. destruct (Obj.get k o).
  - now apply get_replace_other.
  - now apply get_define_other.
Qed.

Lemma In_set k v o x : In x (Obj.set k v o) -> x = (k, v) \/ In x o.
Proof.
  unfold Obj.set. destruct (Obj.get k o).
  - apply In_replace.
  - apply In_define.
Qed.

Lemma NoDup_keys_set k v o : NoDup (Obj.keys o) -> NoDup (Obj.keys (Obj.set k v o)).
Proof.
  intros Hnd. unfold Obj.set. destruct (Obj.get k o) eqn:E.
  - now rewrite keys_replace.
  - apply NoDup_keys_define; [now apply get_None_keys | exact Hnd].
Qed.

Lemma keys_set_present k v x o :
  Obj.get k o = Some x -> Obj.keys (Obj.set k v o) = Obj.keys o.
Proof. intros E. unfold Obj.set. rewrite E. apply keys_replace. Qed.

Lemma get_delete_same k o : Obj.get k (Obj.delete k o) = None.
Proof.
  induction o as [|[k0 v0] r IH]; simpl; [reflexivity|].
  destruct (String.eqb_spec k k0) as [->|Hne]; simpl; [exact IH|].
  destruct (String.eqb_spec k k0); [contradiction | exact IH].
Qed.

Lemma get_delete_other k k' o : k' <> k -> Obj.get k' (Obj.delete k o) = Obj.get k' o.
Proof.
  intros Hne. induction o as [|[k0 v0] r IH]; simpl; [reflexivity|].
  destruct (String.eqb_spec k k0) as [->|Hne0]; simpl.
  - destruct (String.eqb_spec k' k0); [contradiction | exact IH].
  - now rewrite IH.
Qed.

Lemma In_delete k o x : In x (Obj.delete k o) <-> In x o /\ fst x <> k.
Proof.
  unfold Obj.delete. rewrite filter_In.
  destruct (String.eqb_spec k (fst x)); simpl; intuition congruence.
Qed.

Lemma NoDup_keys_delete k o : NoDup (Obj.keys o) -> NoDup (Obj.keys (Obj.delete k o)).
Proof.
  induction o as [|[k0 v0] r IH]; simpl; intros Hnd; [constructor|].
  inversion Hnd; subst.
  destruct (String.eqb k k0); simpl; [auto|].
  constructor; [|auto].
  unfold Obj.keys. rewrite in_map_iff. intros [[k1 v1] [E I]]. simpl in E. subst k1.
  apply In_delete in I. destruct I as [I _].
  apply H1. change k0 with (fst (k0, v1)). now apply in_map.
Qed.

Lemma delete_absent k o : Obj.get k o = None -> Obj.delete k o = o.
Proof.
  induction o as [|[k0 v0] r IH]; simpl; [reflexivity|].
  destruct (String.eqb k k0); simpl; [discriminate|].
  intros H. now rewrite IH.
Qed.

End Facts.

End ObjFacts.

(** ** Registration *)

Lemma get_ensure event w :
  Obj.get event (handlers (ensure event w)) = Some (current event w).
Proof.
  unfold ensure, current. destruct (Obj.get event (handlers w)) eqn:E.
  - exact E.
  - simpl. apply ObjFacts.get_set_same.
Qed.

Lemma get_ensure_other event event' w :
  event' <> event ->
  Obj.get event' (handlers (ensure event w)) = Obj.get event' (handlers w).
Proof.
  intros Hne. unfold ensure. destruct (Obj.get event (handlers w)); [reflexivity|].
  simpl. now apply ObjFacts.get_set_other.
Qed.

Lemma current_ensure event w : current event (ensure event w) = current event w.
Proof. unfold current at 1. now rewrite get_ensure. Qed.

Lemma ensure_fields event w :
  maxListeners (ensure event w) = maxListeners w /\
  log (ensure event w) = log w /\ calls (ensure event w) = calls w.
Proof. unfold ensure. destruct (Obj.get event (handlers w)); simpl; auto. Qed.

Lemma get_on event l prepend w :
  Obj.get event (handlers (on_array event l prepend w))
  = Some (insert prepend (mkListener l true) (current event w)).
Proof.
  unfold on_array.
  destruct (maxListeners (ensure event w) <=? _)%Z; simpl;
    rewrite ObjFacts.get_set_same; f_equal; f_equal;
    unfold current; simpl; fold (current event (ensure event w));
    apply current_ensure.
Qed.

Lemma get_on_other event event' l prepend w :
  event' <> event ->
  Obj.get event' (handlers (on_array event l prepend w)) = Obj.get event' (handlers w).
Proof.
  intros Hne. unfold on_array.
  destruct (maxListeners (ensure event w) <=? _)%Z; simpl;
    rewrite ObjFacts.get_set_other by exact Hne; now apply get_ensure_other.
Qed.

Lemma get_once event l prepend w :
  Obj.get event (handlers (once_array event l prepend w))
  = Some (insert prepend (mkListener l false) (current event w)).
Proof.
  unfold once_array. simpl. rewrite ObjFacts.get_set_same. now rewrite current_ensure.
Qed.

Lemma get_once_other event event' l prepend w :
  event' <> event ->
  Obj.get event' (handlers (once_array event l prepend w)) = Obj.get event' (handlers w).
Proof.
  intros Hne. unfold once_array. simpl.
  rewrite ObjFacts.get_set_other by exact Hne. now apply get_ensure_other.
Qed.

Lemma current_on event l prepend w :
  current event (on_array event l prepend w)
  = insert prepend (mkListener l true) (current event w).
Proof. unfold current at 1. now rewrite get_on. Qed.

Lemma current_once event l prepend w :
  current event (once_array event l prepend w)
  = insert prepend (mkListener l false) (current event w).
Proof. unfold current at 1. now rewrite get_once. Qed.

Lemma on_fields event l prepend w :
  maxListeners (on_array event l prepend w) = maxListeners w /\
  calls (on_array event l prepend w) = calls w.
Proof.
  destruct (ensure_fields event w) as (Hm & _ & Hc). unfold on_array.
  destruct (maxListeners (ensure event w) <=? _)%Z; simpl; auto.
Qed.

Lemma once_fields event l prepend w :
  maxListeners (once_array event l prepend w) = maxListeners w /\
  log (once_array event l prepend w) = log w /\
  calls (once_array event l prepend w) = calls w.
Proof. unfold once_array. simpl. apply ensure_fields. Qed.

Lemma log_on event l prepend w :
  log (on_array event l prepend w)
  = log w ++ (if (maxListeners w <=? Z.of_nat (List.length (current event w)))%Z
              then [LogWarn (exceeded_message (maxListeners w))] else []).
Proof.
  destruct (ensure_fields event w) as (Hm & Hl & _). unfold on_array.
  rewrite current_ensure, Hm.
  destruct (maxListeners w <=? _)%Z; simpl; rewrite Hl; [reflexivity|].
  now rewrite app_nil_r.
Qed.

Lemma listeners_current event w : callbacks event w = map listener (current event w).
Proof. reflexivity. Qed.

Lemma map_listener_insert prepend h hs :
  map listener (insert prepend h hs)
  = if prepend then listener h :: map listener hs else map listener hs ++ [listener h].
Proof. destruct prepend; simpl; [reflexivity|]. now rewrite map_app. Qed.

Lemma listeners_register event r w :
  callbacks event (register_array event r w)
  = if at_head r then callback r :: callbacks event w
    else callbacks event w ++ [callback r].
Proof.
  rewrite !listeners_current. unfold register_array.
  destruct (one_shot r); [rewrite current_once | rewrite current_on];
    now rewrite map_listener_insert.
Qed.

(** ** What [this.handlers[event]] finds *)

Lemma slot_of_own key hs w :
  Obj.get key (handlers w) = Some hs -> slot_of key w = IsArray hs.
Proof. unfold slot_of. now intros ->. Qed.

Lemma slot_of_plain key w :
  plain key -> Obj.get key (handlers w) = None -> slot_of key w = IsUndefined.
Proof. unfold slot_of, plain. now intros -> ->. Qed.

Lemma slot_of_current key w :
  plain key \/ Obj.get key (handlers w) <> None ->
  slot_of key w = IsArray (current key w) \/
  (slot_of key w = IsUndefined /\ current key w = []).
Proof.
  unfold slot_of, current, plain.
  destruct (Obj.get key (handlers w)) as [hs|]; [now left|].
  intros [->|H]; [now right | congruence].
Qed.

Lemma on_returns event l prepend w :
  plain (property_key event) \/ Obj.get (property_key event) (handlers w) <> None ->
  on event l prepend w = Returned tt (on_array (property_key event) l prepend w).
Proof.
  intros H. unfold on.
  destruct (slot_of_current w H) as [->|[-> _]]; reflexivity.
Qed.

Lemma once_returns event l prepend w :
  plain (property_key event) \/ Obj.get (property_key event) (handlers w) <> None ->
  once event l prepend w = Returned tt (once_array (property_key event) l prepend w).
Proof.
  intros H. unfold once.
  destruct (slot_of_current w H) as [->|[-> _]]; reflexivity.
Qed.

Lemma listeners_returns event w :
  plain (property_key event) \/ Obj.get (property_key event) (handlers w) <> None ->
  listeners event w = Returned (callbacks (property_key event) w) w.
Proof.
  intros H. unfold listeners, callbacks.
  destruct (slot_of_current w H) as [->|[-> ->]]; reflexivity.
Qed.

Lemma register_returns event r w :
  plain (property_key event) \/ Obj.get (property_key event) (handlers w) <> None ->
  register event r w = Returned tt (register_array (property_key event) r w).
Proof.
  intros H. unfold register, register_array.
  destruct (one_shot r); [now apply once_returns | now apply on_returns].
Qed.

Lemma own_not_None key (hs : list EventListener) w :
  Obj.get key (handlers w) = Some hs ->
  plain key \/ Obj.get key (handlers w) <> None.
Proof. intros ->. right. discriminate. Qed.

Lemma register_all_returns event rs : forall w,
  plain (property_key event) \/ Obj.get (property_key event) (handlers w) <> None ->
  register_all event rs w
  = Returned tt (register_all_array (property_key event) rs w).
Proof.
  induction rs as [|r rs IH]; intros w H; simpl; [reflexivity|].
  rewrite register_returns by exact H. apply IH.
  destruct H as [H|_]; [now left|]. right.
  unfold register_array, on_array, once_array.
  destruct (one_shot r); simpl; rewrite ObjFacts.get_set_same; discriminate.
Qed.

(** The methods other than [off] use the identifier as a property key and as
    nothing else. *)
Lemma methods_by_key behaviour event :
  (forall l prepend w, on event l prepend w = on (Name (property_key event)) l prepend w) /\
  (forall l prepend w,
     once event l prepend w = once (Name (property_key event)) l prepend w) /\
  (forall w, listeners event w = listeners (Name (property_key event)) w) /\
  (forall fuel args w,
     emit behaviour fuel event args w
     = emit behaviour fuel (Name (property_key event)) args w).
Proof.
  repeat split; try reflexivity.
  intros fuel. assert (Hd : forall rec steps args i w,
    dispatch behaviour rec steps event args i w
    = dispatch behaviour rec steps (Name (property_key event)) args i w).
  { intros rec steps. induction steps as [|n IH]; intros args i w; simpl; [reflexivity|].
    destruct (slot_of (property_key event) w); try reflexivity.
    destruct (nth_error hs i); try reflexivity.
    destruct (exec rec (behaviour (listener e) args) (record_call (listener e) args w));
      auto. }
  destruct fuel; intros args w; simpl; unfold emit_body; simpl property_key;
    rewrite Hd; reflexivity.
Qed.

Lemma log_errors_fields count error w :
  handlers (log_errors count error w) = handlers w /\
  maxListeners (log_errors count error w) = maxListeners w /\
  calls (log_errors count error w) = calls w.
Proof.
  revert w. induction count as [|n IH]; intros w; simpl; [auto|].
  destruct (IH (log_error error w)) as (-> & -> & ->). auto.
Qed.

Lemma slot_of_handlers key w1 w2 :
  handlers w1 = handlers w2 -> slot_of key w1 = slot_of key w2.
Proof. unfold slot_of. now intros ->. Qed.

Lemma slot_of_log_errors key count error w :
  slot_of key (log_errors count error w) = slot_of key w.
Proof. apply slot_of_handlers, log_errors_fields. Qed.

(** [emit] under a name that [handlers] inherits and does not own: nothing
    is called; a function of length 0 counts as an empty array, and any other
    member ends in a [TypeError], after one logged error for every index
    below its length. *)
Lemma emit_inherited behaviour fuel event args w v :
  slot_of (property_key event) w = IsInherited v ->
  emit behaviour (S fuel) event args w
  = if nothing_to_call (IsInherited v) then Returned false w
    else Threw (not_a_function "filter")
           (log_errors (inherited_rounds v 0) (type_error "listener") w).
Proof.
  intros Hs. simpl emit. unfold emit_body. rewrite Hs.
  destruct (nothing_to_call (IsInherited v)); [reflexivity|].
  simpl dispatch. rewrite Hs.
  rewrite (@slot_of_handlers (property_key event) _ w), Hs; [reflexivity|].
  apply log_errors_fields.
Qed.

Lemma callbacks_register_all event rs : forall w,
  callbacks event (register_all_array event rs w)
  = rev (map callback (filter at_head rs))
    ++ callbacks event w
    ++ map callback (filter (fun r => negb (at_head r)) rs).
Proof.
  induction rs as [|r rs IH]; intros w; simpl.
  - now rewrite app_nil_r.
  - change (register_all_array event (r :: rs) w)
      with (register_all_array event rs (register_array event r w)).
    rewrite IH, listeners_register.
    destruct (at_head r); simpl.
    + now rewrite <- app_assoc.
    + now rewrite <- app_assoc.
Qed.







(** ** Removal *)

Lemma findIndex_None l hs :
  findIndex l hs = None <-> (forall h, In h hs -> listener h <> l).
Proof.
  induction hs as [|h r IH]; simpl.
  - split; [intros _ h [] | reflexivity].
  - destruct (Nat.eqb_spec (listener h) l) as [E|Hne].
    + split; [discriminate|]. intros H. exfalso. apply (H h); auto.
    + destruct (findIndex l r) as [i|]; simpl.
      * split; [discriminate|]. intros H.
        assert (HN : Some i = None) by (apply IH; intros; apply H; auto).
        discriminate.
      * split; [|reflexivity]. intros _ h' [<-|I]; [exact Hne|].
        now apply IH.
Qed.

Lemma splice_findIndex l hs index :
  findIndex l hs = Some index -> splice index hs = remove_first l hs.
Proof.
  revert index. induction hs as [|h r IH]; simpl; intros index; [discriminate|].
  destruct (Nat.eqb (listener h) l).
  - intros [= <-]. reflexivity.
  - destruct (findIndex l r) as [i|]; simpl; [|discriminate].
    intros [= <-]. unfold splice in *. simpl. f_equal. now apply IH.
Qed.

Lemma remove_first_no_match l hs :
  findIndex l hs = None -> remove_first l hs = hs.
Proof.
  induction hs as [|h r IH]; simpl; [reflexivity|].
  destruct (Nat.eqb (listener h) l); [discriminate|].
  destruct (findIndex l r); simpl; [discriminate|].
  intros _. now rewrite IH.
Qed.

Lemma length_remove_first l hs :
  List.length hs <= S (List.length (remove_first l hs)).
Proof.
  induction hs as [|h r IH]; simpl; [lia|].
  destruct (Nat.eqb (listener h) l); simpl; lia.
Qed.

Lemma off_loop_no_match l w evs :
  (forall ev, In ev evs ->
     exists hs, Obj.get ev (handlers w) = Some hs /\ hs <> [] /\ findIndex l hs = None) ->
  off_loop evs (Some l) w = Returned tt w.
Proof.
  induction evs as [|ev rest IH]; simpl; intros H; [reflexivity|].
  destruct (H ev) as (hs & Hg & Hne & Hf); [now left|].
  rewrite Hg. destruct hs as [|h hs]; [congruence|]. simpl List.length. simpl Nat.eqb.
  rewrite Hf. apply IH. intros; apply H; now right.
Qed.

Lemma filter_named event ks x :
  In x (filter (fun item => String.eqb item event) ks) <-> x = event /\ In event ks.
Proof.
  rewrite filter_In. destruct (String.eqb_spec x event) as [->|Hne].
  - tauto.
  - split; [intros [_ [=]] | intros [E _]; contradiction].
Qed.

Lemma no_empty_get event hs w :
  no_empty_entry w -> Obj.get event (handlers w) = Some hs -> hs <> [].
Proof.
  intros Hne Hg. apply ObjFacts.get_Some_In in Hg.
  unfold no_empty_entry in Hne. rewrite Forall_forall in Hne.
  exact (Hne _ Hg).
Qed.

Lemma world_eta w : mkWorld (handlers w) (maxListeners w) (log w) (calls w) = w.
Proof. now destruct w. Qed.

Lemma replace_place k v v0 n (o : Obj.t (list EventListener)) :
  Obj.get k o = None ->
  Obj.replace k v (Obj.place_index n k v0 o) = Obj.place_index n k v o.
Proof.
  induction o as [|[k1 v1] r IH]; simpl.
  - now rewrite String.eqb_refl.
  - destruct (String.eqb_spec k k1) as [->|Hne]; [discriminate|]. intros H.
    destruct (Obj.array_index k1) as [m|]; [destruct (m <? n)%N|]; simpl;
      rewrite ?String.eqb_refl; try reflexivity.
    destruct (String.eqb_spec k k1); [contradiction|]. now rewrite IH.
Qed.

Lemma replace_app_absent k v (o o' : Obj.t (list EventListener)) :
  Obj.get k o = None -> Obj.replace k v (o ++ o') = o ++ Obj.replace k v o'.
Proof.
  induction o as [|[k1 v1] r IH]; simpl; [reflexivity|].
  destruct (String.eqb k k1); [discriminate|]. intros H. now rewrite IH.
Qed.

Lemma set_after_create k v v0 (o : Obj.t (list EventListener)) :
  Obj.get k o = None -> Obj.set k v (Obj.set k v0 o) = Obj.set k v o.
Proof.
  intros H. unfold Obj.set at 1. rewrite ObjFacts.get_set_same.
  unfold Obj.set. rewrite H. unfold Obj.define.
  destruct (Obj.array_index k).
  - now apply replace_place.
  - rewrite replace_app_absent by exact H. simpl. now rewrite String.eqb_refl.
Qed.

Lemma handlers_on event l prepend w :
  handlers (on_array event l prepend w)
  = Obj.set event (insert prepend (mkListener l true) (current event w)) (handlers w).
Proof.
  assert (E : handlers (on_array event l prepend w)
              = Obj.set event
                  (insert prepend (mkListener l true) (current event (ensure event w)))
                  (handlers (ensure event w))).
  { unfold on_array. destruct (maxListeners (ensure event w) <=? _)%Z; reflexivity. }
  rewrite E, current_ensure.
  unfold ensure. destruct (Obj.get event (handlers w)) eqn:G; [reflexivity|].
  simpl. now apply set_after_create.
Qed.

Lemma handlers_once event l prepend w :
  handlers (once_array event l prepend w)
  = Obj.set event (insert prepend (mkListener l false) (current event w)) (handlers w).
Proof.
  unfold once_array. simpl. rewrite current_ensure.
  unfold ensure. destruct (Obj.get event (handlers w)) eqn:G; [reflexivity|].
  simpl. now apply set_after_create.
Qed.

Lemma insert_not_nil prepend h hs : insert prepend h hs <> [].
Proof. destruct prepend; simpl; [discriminate|]. now destruct hs. Qed.

Lemma no_empty_set k v o :
  v <> [] -> Forall (fun kv : string * list EventListener => snd kv <> []) o ->
  Forall (fun kv : string * list EventListener => snd kv <> []) (Obj.set k v o).
Proof.
  intros Hv Ho. rewrite Forall_forall in *. intros x Hx.
  apply ObjFacts.In_set in Hx. destruct Hx as [->|Hx]; [exact Hv | auto].
Qed.

Lemma no_empty_delete k o :
  Forall (fun kv : string * list EventListener => snd kv <> []) o ->
  Forall (fun kv : string * list EventListener => snd kv <> []) (Obj.delete k o).
Proof.
  intros Ho. rewrite Forall_forall in *. intros x Hx.
  apply ObjFacts.In_delete in Hx. apply Ho, Hx.
Qed.

Lemma no_empty_set_delete k v o :
  Forall (fun kv : string * list EventListener => snd kv <> []) o ->
  Forall (fun kv : string * list EventListener => snd kv <> [])
         (Obj.delete k (Obj.set k v o)).
Proof.
  intros Ho. rewrite Forall_forall in *. intros x Hx.
  apply ObjFacts.In_delete in Hx. destruct Hx as [Hx Hk].
  apply ObjFacts.In_set in Hx. destruct Hx as [->|Hx]; [now elim Hk | auto].
Qed.

Lemma on_array_ok event l prepend w : registry_ok w -> registry_ok (on_array event l prepend w).
Proof.
  intros [Hu Hn]. unfold registry_ok, unique_keys, no_empty_entry, events in *.
  rewrite handlers_on. split.
  - now apply ObjFacts.NoDup_keys_set.
  - apply no_empty_set; [apply insert_not_nil | exact Hn].
Qed.

Lemma once_array_ok event l prepend w : registry_ok w -> registry_ok (once_array event l prepend w).
Proof.
  intros [Hu Hn]. unfold registry_ok, unique_keys, no_empty_entry, events in *.
  rewrite handlers_once. split.
  - now apply ObjFacts.NoDup_keys_set.
  - apply no_empty_set; [apply insert_not_nil | exact Hn].
Qed.

Lemma on_no_empty event l prepend w :
  no_empty_entry w -> no_empty_entry (on_array event l prepend w).
Proof.
  unfold no_empty_entry. rewrite handlers_on. apply no_empty_set, insert_not_nil.
Qed.

Lemma off_event_listener event l w :
  no_empty_entry w ->
  off (Some (Name event)) (Some l) w
  = Returned tt
      match Obj.get event (handlers w) with
      | None => w
      | Some hs =>
          match findIndex l hs with
          | None => w
          | Some index =>
              let w1 := with_handlers (Obj.set event (splice index hs)) w in
              if Nat.eqb (List.length (splice index hs)) 0
              then with_handlers (Obj.delete event) w1 else w1
          end
      end.
Proof.
  intros Hne. unfold off. simpl same_name.
  remember (filter (fun item => String.eqb item event) (events w)) as evs eqn:Hevs.
  assert (Hin : forall x, In x evs <-> x = event /\ In event (events w))
    by (intros x; subst evs; apply filter_named).
  destruct (Obj.get event (handlers w)) as [hs|] eqn:G.
  - assert (Hhs : hs <> []) by (eapply no_empty_get; eauto).
    assert (Hk : In event (events w)).
    { destruct (in_dec string_dec event (events w)) as [I|NI]; [exact I|].
      apply ObjFacts.get_None_keys in NI. unfold events in *. congruence. }
    destruct evs as [|ev rest].
    + exfalso. apply (proj2 (Hin event)); auto.
    + assert (ev = event) by (apply Hin; now left). subst ev. simpl.
      rewrite G. destruct hs as [|h hs]; [congruence|].
      simpl List.length at 1. simpl Nat.eqb at 1. cbv iota.
      destruct (findIndex l (h :: hs)) as [index|] eqn:F; [reflexivity|].
      apply off_loop_no_match. intros x Hx.
      assert (x = event) by (apply Hin; now right). subst x.
      exists (h :: hs). repeat split; auto.
  - destruct evs as [|ev rest]; [reflexivity|]. exfalso.
    assert (Hk : In event (events w)) by (apply (Hin ev); now left).
    apply ObjFacts.get_None_keys in G. now apply G.
Qed.

Lemma off_event_listener_spec event l w :
  no_empty_entry w ->
  exists w',
    off (Some (Name event)) (Some l) w = Returned tt w' /\
    current event w' = remove_first l (current event w) /\
    (forall event', event' <> event ->
       Obj.get event' (handlers w') = Obj.get event' (handlers w)) /\
    ((forall h, In h (current event w) -> listener h <> l) -> w' = w) /\
    log w' = log w /\ calls w' = calls w.
Proof.
  intros Hne. rewrite (off_event_listener event l Hne).
  eexists. split; [reflexivity|]. unfold current at 2 3.
  destruct (Obj.get event (handlers w)) as [hs|] eqn:G.
  - destruct (findIndex l hs) as [index|] eqn:F.
    + rewrite (splice_findIndex _ _ F).
      repeat split.
      * unfold current.
        destruct (remove_first l hs) as [|h' r'] eqn:R; simpl.
        -- now rewrite ObjFacts.get_delete_same.
        -- now rewrite ObjFacts.get_set_same.
      * intros event' Hev.
        destruct (Nat.eqb (List.length (remove_first l hs)) 0); simpl;
          rewrite ?ObjFacts.get_delete_other by exact Hev;
          now rewrite ObjFacts.get_set_other by exact Hev.
      * intros Hno. apply findIndex_None in Hno. congruence.
      * now destruct (Nat.eqb (List.length (remove_first l hs)) 0).
      * now destruct (Nat.eqb (List.length (remove_first l hs)) 0).
    + rewrite (remove_first_no_match _ _ F). unfold current. rewrite G.
      repeat split; auto.
  - unfold current. rewrite G. repeat split; auto.
Qed.

(** C6, as amended: with the event given as a string, [off(event, callback)]
    removes the first record, in the order of the event's array, whose
    callback is the given one, and no other record, here or under another
    event; it changes nothing when no record matches (in particular when the
    event has no listeners) and it returns normally.  After the same callback
    has been registered twice with [on], under a name that
    [Object.prototype] does not define, one such call leaves one
    registration. *)
Theorem off_removes_earliest_match (event : string) (l : cb) (w : world) :
  no_empty_entry w ->
  exists w',
    off (Some (Name event)) (Some l) w = Returned tt w' /\
    current event w' = remove_first l (current event w) /\
    List.length (current event w) <= S (List.length (current event w')) /\
    (forall event', event' <> event ->
       Obj.get event' (handlers w') = Obj.get event' (handlers w)) /\
    ((forall h, In h (current event w) -> listener h <> l) -> w' = w) /\
    log w' = log w /\ calls w' = calls w /\
    (forall p1 p2, plain event -> current event w = [] ->
       exists w1 w2 w'',
         on event l p1 w = Returned tt w1 /\
         on event l p2 w1 = Returned tt w2 /\
         off (Some (Name event)) (Some l) w2 = Returned tt w'' /\
         listeners event w'' = Returned [l] w'').
Proof.
  intros Hne.
  destruct (off_event_listener_spec event l Hne)
    as (w' & Hoff & Hcur & Hoth & Hno & Hlog & Hcalls).
  exists w'. split; [exact Hoff|]. split; [exact Hcur|].
  split; [rewrite Hcur; apply length_remove_first|].
  split; [exact Hoth|]. split; [exact Hno|]. split; [exact Hlog|].
  split; [exact Hcalls|].
  intros p1 p2 Hplain Hempty.
  assert (Hne2 : no_empty_entry (on_array event l p2 (on_array event l p1 w)))
    by now do 2 apply on_no_empty.
  destruct (off_event_listener_spec event l Hne2) as (w2 & Hoff2 & Hcur2 & _).
  exists (on_array event l p1 w), (on_array event l p2 (on_array event l p1 w)), w2.
  split; [apply (@on_returns (Name event)); now left|].
  split; [apply (@on_returns (Name event)); now left|].
  split; [exact Hoff2|].
  rewrite (@listeners_returns (Name event)) by now left.
  simpl property_key. rewrite listeners_current, Hcur2, !current_on, Hempty.
  destruct p1, p2; simpl; rewrite Nat.eqb_refl; reflexivity.
Qed.

Lemma off_removes_earliest_match_witness :
  let w := mkWorld [("EVENT", [mkListener 7 true; mkListener 3 true; mkListener 7 false])]
             10 [] [] in
  let v := mkWorld [("OTHER_EVENT", [mkListener 3 true])] 10 [] [] in
  (no_empty_entry w /\ no_empty_entry v /\ plain "EVENT" /\ current "EVENT" v = []) /\
  (exists w',
     off (Some (Name "EVENT")) (Some 7) w = Returned tt w' /\
     current "EVENT" w' = remove_first 7 (current "EVENT" w)) /\
  (exists v1 v2 v',
     on "EVENT" 7 false v = Returned tt v1 /\
     on "EVENT" 7 true v1 = Returned tt v2 /\
     off (Some (Name "EVENT")) (Some 7) v2 = Returned tt v' /\
     listeners "EVENT" v' = Returned [7] v').
Proof.
  intros w v.
  assert (H : no_empty_entry w) by (repeat constructor; discriminate).
  assert (H' : no_empty_entry v) by (repeat constructor; discriminate).
  assert (Hp : plain "EVENT") by reflexivity.
  assert (Hc : current "EVENT" v = []) by reflexivity.
  split; [auto|]. split.
  - destruct (@off_removes_earliest_match "EVENT" 7 w H) as (w' & Hoff & Hcur & _).
    exists w'. split; [exact Hoff | exact Hcur].
  - destruct (@off_removes_earliest_match "EVENT" 7 v H')
      as (v' & _ & _ & _ & _ & _ & _ & _ & Htwice).
    exact (Htwice false true Hp Hc).
Defined.

(** C6, as stated, fails: callback 7 is registered with [on], then with
    [once] at the head; [off("EVENT", 7)] removes the record that [once]
    made, the later registration, and the earliest one stays.  With the
    event given as the number 1, two registrations of callback 7 with [on]
    are both left by [off(1, 7)]. *)
Lemma off_removes_later_registration :
  let w := new_EventEmitter None in
  (exists w1 w2 w3,
     on "EVENT" 7 false w = Returned tt w1 /\
     once "EVENT" 7 true w1 = Returned tt w2 /\
     current "EVENT" w2 = [mkListener 7 false; mkListener 7 true] /\
     off (Some (Name "EVENT")) (Some 7) w2 = Returned tt w3 /\
     current "EVENT" w3 = [mkListener 7 true]) /\
  (exists v1 v2,
     on (Index 1) 7 false w = Returned tt v1 /\
     on (Index 1) 7 false v1 = Returned tt v2 /\
     off (Some (Index 1)) (Some 7) v2 = Returned tt v2 /\
     listeners (Index 1) v2 = Returned [7; 7] v2).
Proof.
  split.
  - do 3 eexists. split; [reflexivity|]. split; [reflexivity|].
    split; [reflexivity|]. split; reflexivity.
  - do 2 eexists. split; [reflexivity|]. split; [reflexivity|].
    split; reflexivity.
Qed.

(** C7: [off(undefined, callback)] at a registry where the callback is
    registered under two events.  The first removal leaves the method, so the
    registration under the second event stays. *)
Example off_without_event_stops_at_first_match :
  let w := mkWorld [("EVENT", [mkListener 0 true]);
                    ("OTHER_EVENT", [mkListener 0 true])] 10 [] [] in
  (exists w0,
     on "EVENT" 0 false (new_EventEmitter None) = Returned tt w0 /\
     on "OTHER_EVENT" 0 false w0 = Returned tt w) /\
  events w = ["EVENT"; "OTHER_EVENT"] /\
  exists w',
    off None (Some 0) w = Returned tt w' /\
    listeners "EVENT" w' = Returned [] w' /\
    listeners "OTHER_EVENT" w' = Returned [0] w' /\
    events w' = ["OTHER_EVENT"].
Proof.
  split; [eexists; split; reflexivity|].
  split; [reflexivity|]. eexists.
  split; [reflexivity|]. split; [reflexivity|]. split; reflexivity.
Qed.

(** ** Dispatch *)

Section DispatchFacts.

Variable behaviour : cb -> payload -> prog.
Variable emit_rec : identifier -> payload -> world -> outcome bool.
Variable event : string.
Variable args : payload.

Ltac list_eq :=
  repeat first [rewrite <- app_assoc | rewrite map_app | progress simpl]; reflexivity.

Lemma nth_error_middle (done todo : list EventListener) h :
  nth_error (done ++ h :: todo) (List.length done) = Some h.
Proof. rewrite nth_error_app2 by lia. now rewrite Nat.sub_diag. Qed.

Lemma nth_error_end (done : list EventListener) :
  nth_error done (List.length done) = None.
Proof. apply nth_error_None. lia. Qed.

(** One round of the loop, whatever the callback does: what it throws is
    caught and logged, and the loop goes on with the next index. *)
Lemma dispatch_round_caught steps i w hs h error w' :
  Obj.get event (handlers w) = Some hs ->
  nth_error hs i = Some h ->
  exec emit_rec (behaviour (listener h) args) (record_call (listener h) args w)
  = Threw error w' ->
  dispatch behaviour emit_rec (S steps) event args i w
  = dispatch behaviour emit_rec steps event args (S i) (log_error error w').
Proof.
  intros Hg Hn He. simpl dispatch. simpl property_key.
  now rewrite (slot_of_own _ _ Hg), Hn, He.
Qed.

(** A round of the loop over quiet callbacks leaves [handlers] alone, so the
    rest of the array is walked to its end. *)
Lemma dispatch_quiet todo : forall done w steps,
  Obj.get event (handlers w) = Some (done ++ todo) ->
  all_quiet behaviour args todo ->
  List.length todo < steps ->
  dispatch behaviour emit_rec steps event args (List.length done) w
  = Returned tt
      (mkWorld (handlers w) (maxListeners w)
         (log w ++ flat_map (fun h => fault (behaviour (listener h) args)) todo)
         (calls w ++ map (invocation args) todo)).
Proof.
  induction todo as [|h t IH]; intros done w steps Hg Hq Hlen;
    (destruct steps as [|n]; [simpl in Hlen; lia|]); simpl dispatch;
    simpl property_key; rewrite (slot_of_own _ _ Hg).
  - rewrite app_nil_r, nth_error_end. simpl. now rewrite !app_nil_r, world_eta.
  - rewrite nth_error_middle.
    assert (Hh : quiet (behaviour (listener h) args) = true) by (apply Hq; now left).
    assert (Hlen' : List.length t < n) by (simpl in Hlen; lia).
    assert (Hq' : all_quiet behaviour args t) by (intros x Hx; apply Hq; now right).
    assert (Hd : S (List.length done) = List.length (done ++ [h]))
      by (rewrite length_app; simpl; lia).
    destruct (behaviour (listener h) args) eqn:B; try discriminate; simpl exec; rewrite Hd.
    + rewrite IH; auto.
      * simpl. rewrite B. simpl. now rewrite <- !app_assoc.
      * simpl. now rewrite <- app_assoc.
    + rewrite IH; auto.
      * simpl. rewrite B. simpl. now rewrite <- !app_assoc.
      * simpl. now rewrite <- app_assoc.
Qed.

Lemma exec_appended p : forall regs w cur,
  appended event p = Some regs ->
  Obj.get event (handlers w) = Some cur ->
  exists w',
    (exec emit_rec p w = Returned tt w' \/ exists error, exec emit_rec p w = Threw error w') /\
    calls w' = calls w /\
    Obj.get event (handlers w') = Some (cur ++ regs).
Proof.
  induction p as [| error | ev l prepend k IH | ev l prepend k IH | | | |];
    intros regs w cur Happ Hg; simpl in Happ; try discriminate.
  - injection Happ as <-. exists w. rewrite app_nil_r. simpl. auto.
  - injection Happ as <-. exists w. rewrite app_nil_r. simpl. eauto.
  - destruct prepend; [discriminate|].
    destruct (String.eqb_spec (property_key ev) event) as [Hev|]; [|discriminate].
    destruct (appended event k) as [regs'|] eqn:K; [|discriminate].
    injection Happ as <-.
    destruct (IH regs' (on_array event l false w) (cur ++ [mkListener l true]) eq_refl)
      as (w' & Hex & Hc & Hg').
    { rewrite get_on. unfold current. now rewrite Hg. }
    exists w'. simpl exec.
    rewrite on_returns by (rewrite Hev; now apply own_not_None with (hs := cur)).
    rewrite Hev. split; [exact Hex|]. split.
    + rewrite Hc. apply on_fields.
    + now rewrite Hg', <- app_assoc.
  - destruct prepend; [discriminate|].
    destruct (String.eqb_spec (property_key ev) event) as [Hev|]; [|discriminate].
    destruct (appended event k) as [regs'|] eqn:K; [|discriminate].
    injection Happ as <-.
    destruct (IH regs' (once_array event l false w) (cur ++ [mkListener l false]) eq_refl)
      as (w' & Hex & Hc & Hg').
    { rewrite get_once. unfold current. now rewrite Hg. }
    exists w'. simpl exec.
    rewrite once_returns by (rewrite Hev; now apply own_not_None with (hs := cur)).
    rewrite Hev. split; [exact Hex|]. split.
    + rewrite Hc. apply once_fields.
    + now rewrite Hg', <- app_assoc.
Qed.

(** Records appended to the event's array while the loop runs are reached
    by the loop: the array is longer when the condition is next evaluated. *)
Lemma dispatch_appending todo : forall done extra w steps,
  Obj.get event (handlers w) = Some (done ++ todo ++ extra) ->
  appends_quiet behaviour event args todo ->
  all_quiet behaviour args extra ->
  List.length todo + List.length extra
    + List.length (flat_map (added behaviour event args) todo) < steps ->
  exists w',
    dispatch behaviour emit_rec steps event args (List.length done) w = Returned tt w' /\
    calls w' = calls w
               ++ map (invocation args)
                    (todo ++ extra ++ flat_map (added behaviour event args) todo) /\
    Obj.get event (handlers w')
    = Some (done ++ todo ++ extra ++ flat_map (added behaviour event args) todo).
Proof.
  induction todo as [|h t IH]; intros done extra w steps Hg Ha Hq Hlen.
  - simpl in *. eexists. split; [apply (@dispatch_quiet extra); auto; lia|].
    simpl. now rewrite !app_nil_r.
  - destruct steps as [|n]; [lia|]. simpl dispatch.
    change ((h :: t) ++ extra) with (h :: t ++ extra) in Hg.
    simpl property_key. rewrite (slot_of_own _ _ Hg), nth_error_middle.
    destruct (Ha h) as (regs & Happ & Hregs); [now left|].
    destruct (@exec_appended (behaviour (listener h) args) regs
                (record_call (listener h) args w) _ Happ Hg)
      as (w1 & Hex & Hc1 & Hg1).
    assert (Hadd : added behaviour event args h = regs)
      by (unfold added; now rewrite Happ).
    assert (Hstep : forall w2, handlers w2 = handlers w1 -> calls w2 = calls w1 ->
      exists w',
        dispatch behaviour emit_rec n event args (S (List.length done)) w2
        = Returned tt w' /\
        calls w' = calls w
                   ++ map (invocation args)
                        ((h :: t) ++ extra
                         ++ flat_map (added behaviour event args) (h :: t)) /\
        Obj.get event (handlers w')
        = Some (done ++ (h :: t) ++ extra
                ++ flat_map (added behaviour event args) (h :: t))).
    { intros w2 Hh2 Hc2.
      replace (S (List.length done)) with (List.length (done ++ [h]))
        by (rewrite length_app; simpl; lia).
      destruct (IH (done ++ [h]) (extra ++ regs) w2 n) as (w' & Hd & Hc & Hg').
      - rewrite Hh2, Hg1. f_equal. list_eq.
      - intros x Hx. apply Ha. now right.
      - intros x Hx. apply in_app_or in Hx. destruct Hx; auto.
      - simpl in Hlen. rewrite Hadd in Hlen. rewrite !length_app in *. lia.
      - exists w'. split; [exact Hd|]. simpl flat_map. rewrite Hadd. split.
        + rewrite Hc, Hc2, Hc1. list_eq.
        + rewrite Hg'. f_equal. list_eq. }
    destruct Hex as [Hex|[error Hex]]; rewrite Hex; now apply Hstep.
Qed.

End DispatchFacts.

Section EmitFacts.

Variable behaviour : cb -> payload -> prog.

Lemma emit_no_listeners fuel (event : string) args w :
  plain event \/ Obj.get event (handlers w) <> None ->
  current event w = [] -> emit behaviour fuel event args w = Returned false w.
Proof.
  intros Hp H.
  assert (Hn : nothing_to_call (slot_of event w) = true).
  { destruct (slot_of_current w Hp) as [->|[-> _]]; [|reflexivity].
    rewrite H. reflexivity. }
  destruct fuel; simpl emit; unfold emit_body; simpl property_key; now rewrite Hn.
Qed.

Lemma emit_with_listeners fuel (event : string) args w :
  current event w <> [] ->
  emit behaviour (S fuel) event args w
  = match dispatch behaviour (emit behaviour fuel) (S fuel) event args 0 w with
    | Returned _ w1 =>
        match slot_of event w1 with
        | IsUndefined => Threw (type_error "filter") w1
        | IsInherited _ => Threw (not_a_function "filter") w1
        | IsArray hs1 =>
            let kept := filter persistent hs1 in
            let w2 := with_handlers (Obj.set event kept) w1 in
            Returned true (if Nat.eqb (List.length kept) 0
                           then with_handlers (Obj.delete event) w2
                           else w2)
        end
    | Threw error w1 => Threw error w1
    | OutOfFuel => OutOfFuel
    end.
Proof.
  unfold current. intros H. simpl emit. unfold emit_body. simpl property_key.
  unfold slot_of at 1.
  destruct (Obj.get event (handlers w)) as [[|h hs]|]; try congruence. reflexivity.
Qed.

(** The statements after the loop: [filter], the assignment, [delete]. *)
Lemma emit_finish fuel event args w w1 hs1 :
  current event w <> [] ->
  dispatch behaviour (emit behaviour fuel) (S fuel) event args 0 w = Returned tt w1 ->
  Obj.get event (handlers w1) = Some hs1 ->
  exists w',
    emit behaviour (S fuel) event args w = Returned true w' /\
    Obj.get event (handlers w')
    = match filter persistent hs1 with [] => None | kept => Some kept end /\
    (forall event', event' <> event ->
       Obj.get event' (handlers w') = Obj.get event' (handlers w1)) /\
    maxListeners w' = maxListeners w1 /\ log w' = log w1 /\ calls w' = calls w1.
Proof.
  intros Hne Hd Hg.
  rewrite (@emit_with_listeners fuel event args w Hne), Hd, (slot_of_own _ _ Hg).
  eexists. split; [reflexivity|].
  destruct (filter persistent hs1) as [|h' r'] eqn:F; simpl; repeat split; auto.
  - apply ObjFacts.get_delete_same.
  - intros event' Hev. rewrite ObjFacts.get_delete_other by exact Hev.
    now apply ObjFacts.get_set_other.
  - apply ObjFacts.get_set_same.
  - intros event' Hev. now apply ObjFacts.get_set_other.
Qed.

Lemma quiet_appended event p : quiet p = true -> appended event p = Some [].
Proof. destruct p; simpl; try discriminate; reflexivity. Qed.

Lemma all_quiet_appends event args hs :
  all_quiet behaviour args hs -> appends_quiet behaviour event args hs.
Proof.
  intros H h Hh. exists []. split; [apply quiet_appended, H, Hh | intros r []].
Qed.

Lemma all_quiet_added event args hs :
  all_quiet behaviour args hs -> flat_map (added behaviour event args) hs = [].
Proof.
  induction hs as [|h t IH]; intros H; simpl; [reflexivity|].
  unfold added at 1. rewrite (@quiet_appended event _ (H h (or_introl eq_refl))).
  apply IH. intros x Hx. apply H. now right.
Qed.

(** C1, as amended: [emit] takes no copy of the event's array; it walks the
    array itself by index.  When the records present at the start only append
    quiet callbacks to this event, [emit] calls the records present at the
    start, in their order, and then, in the same pass, the records that were
    appended meanwhile; when they are all quiet it calls exactly the records
    present at the start, in their order. *)
Theorem emit_walks_live_sequence
    (fuel : nat) (event : string) (args : payload) (w : world)
    (hs : list EventListener) :
  Obj.get event (handlers w) = Some hs ->
  hs <> [] ->
  appends_quiet behaviour event args hs ->
  List.length hs + List.length (flat_map (added behaviour event args) hs) < fuel ->
  exists w',
    emit behaviour fuel event args w = Returned true w' /\
    calls w' = calls w
               ++ map (invocation args) hs
               ++ map (invocation args) (flat_map (added behaviour event args) hs) /\
    (all_quiet behaviour args hs ->
     calls w' = calls w ++ map (invocation args) hs).
Proof.
  intros Hg Hne Ha Hlen. destruct fuel as [|f]; [lia|].
  assert (Hcur : current event w <> []) by (unfold current; now rewrite Hg).
  destruct (@dispatch_appending behaviour (emit behaviour f) event args hs [] [] w (S f))
    as (w1 & Hd & Hc & Hg1); auto.
  - simpl. now rewrite app_nil_r.
  - intros h [].
  - simpl. lia.
  - simpl in Hc, Hg1.
    destruct (@emit_finish f event args w w1 _ Hcur Hd Hg1)
      as (w' & He & _ & _ & _ & _ & Hc').
    exists w'. split; [exact He|]. split.
    + now rewrite Hc', Hc, map_app.
    + intros Hq. rewrite Hc', Hc, (@all_quiet_added event args hs Hq). now rewrite app_nil_r.
Qed.

End EmitFacts.

Lemma emit_walks_live_sequence_witness :
  let w := mkWorld [("EVENT", [mkListener 0 true])] 10 [] [] in
  let hs := [mkListener 0 true] in
  let args := [VNumber 42] in
  (Obj.get "EVENT" (handlers w) = Some hs /\
   hs <> [] /\
   appends_quiet registers_another "EVENT" args hs /\
   List.length hs
     + List.length (flat_map (added registers_another "EVENT" args) hs) < 4) /\
  exists w',
    emit registers_another 4 "EVENT" args w = Returned true w' /\
    calls w' = calls w
               ++ map (invocation args) hs
               ++ map (invocation args)
                    (flat_map (added registers_another "EVENT" args) hs) /\
    (all_quiet registers_another args hs ->
     calls w' = calls w ++ map (invocation args) hs).
Proof.
  intros w hs args.
  assert (H1 : Obj.get "EVENT" (handlers w) = Some hs) by reflexivity.
  assert (H2 : hs <> []) by discriminate.
  assert (H3 : appends_quiet registers_another "EVENT" args hs).
  { intros h [<-|[]]. exists [mkListener 1 true]. split; [reflexivity|].
    intros r [<-|[]]. reflexivity. }
  assert (H4 : List.length hs
               + List.length (flat_map (added registers_another "EVENT" args) hs) < 4)
    by (vm_compute; lia).
  split; [auto|].
  exact (@emit_walks_live_sequence registers_another 4 "EVENT" args w hs H1 H2 H3 H4).
Defined.

(** C1, as stated, fails: callback 0, the only listener of "EVENT" when
    [emit] is called, registers callback 1 under "EVENT" while it runs, and
    callback 1 is called in that same pass. *)
Lemma emit_calls_listener_added_during_dispatch :
  let w := mkWorld [("EVENT", [mkListener 0 true])] 10 [] [] in
  let args := [VNumber 42] in
  on "EVENT" 0 false (new_EventEmitter None) = Returned tt w /\
  listeners "EVENT" w = Returned [0] w /\
  exists w',
    emit registers_another 3 "EVENT" args w = Returned true w' /\
    calls w' = [(0, args); (1, args)] /\
    ~ In 1 [0] /\ In (1, args) (calls w').
Proof.
  split; [reflexivity|]. split; [reflexivity|].
  eexists. split; [reflexivity|]. split; [reflexivity|].
  split; [intros [H|[]]; discriminate | right; now left].
Qed.



(** Whatever the callbacks did, a call of [emit] that returns went through the
    statements after the loop. *)
Lemma emit_returned_inv behaviour fuel (event : string) args w b w' :
  emit behaviour fuel event args w = Returned b w' ->
  (b = false /\ w' = w /\ current event w = []) \/
  (b = true /\ current event w <> [] /\
   exists w1 hs1,
     Obj.get event (handlers w1) = Some hs1 /\
     w' = (if Nat.eqb (List.length (filter persistent hs1)) 0
           then with_handlers (Obj.delete event)
                  (with_handlers (Obj.set event (filter persistent hs1)) w1)
           else with_handlers (Obj.set event (filter persistent hs1)) w1)).
Proof.
  assert (Hbody : forall rec steps,
    emit_body behaviour rec steps event args w = Returned b w' ->
    (b = false /\ w' = w /\ current event w = []) \/
    (b = true /\ current event w <> [] /\
     exists w1 hs1,
       Obj.get event (handlers w1) = Some hs1 /\
       w' = (if Nat.eqb (List.length (filter persistent hs1)) 0
             then with_handlers (Obj.delete event)
                    (with_handlers (Obj.set event (filter persistent hs1)) w1)
             else with_handlers (Obj.set event (filter persistent hs1)) w1))).
  { intros rec steps. unfold emit_body. simpl property_key.
    assert (Hafter : forall w1,
      match slot_of event w1 with
      | IsUndefined => Threw (type_error "filter") w1
      | IsInherited _ => Threw (not_a_function "filter") w1
      | IsArray hs1 =>
          Returned true
            (if Nat.eqb (List.length (filter persistent hs1)) 0
             then with_handlers (Obj.delete event)
                    (with_handlers (Obj.set event (filter persistent hs1)) w1)
             else with_handlers (Obj.set event (filter persistent hs1)) w1)
      end = Returned b w' ->
      b = true /\
      exists w1 hs1,
        Obj.get event (handlers w1) = Some hs1 /\
        w' = (if Nat.eqb (List.length (filter persistent hs1)) 0
              then with_handlers (Obj.delete event)
                     (with_handlers (Obj.set event (filter persistent hs1)) w1)
              else with_handlers (Obj.set event (filter persistent hs1)) w1)).
    { intros w1. unfold slot_of.
      destruct (Obj.get event (handlers w1)) as [hs1|] eqn:G1.
      - intros [= <- <-]. split; [reflexivity|]. exists w1, hs1. auto.
      - destruct (object_prototype event); discriminate. }
    unfold slot_of at 1, current.
    destruct (Obj.get event (handlers w)) as [[|h hs]|] eqn:G.
    - simpl. intros [= <- <-]. auto.
    - simpl nothing_to_call. cbv iota.
      destruct (dispatch behaviour rec steps event args 0 w) as [[] w1| |];
        try discriminate.
      intros H. apply Hafter in H. destruct H as [-> H].
      right. split; [reflexivity|]. split; [discriminate | exact H].
    - destruct (object_prototype event) as [[n|]|] eqn:P; simpl nothing_to_call.
      + destruct (n =? 0)%Z; [intros [= <- <-]; auto|].
        destruct steps as [|steps']; simpl dispatch; [discriminate|].
        simpl property_key. unfold slot_of at 1. rewrite G, P.
        rewrite slot_of_log_errors.
        unfold slot_of. rewrite G, P. discriminate.
      + destruct steps as [|steps']; simpl dispatch; [discriminate|].
        simpl property_key. unfold slot_of at 1. rewrite G, P.
        simpl log_errors. unfold slot_of. rewrite G, P. discriminate.
      + intros [= <- <-]. auto. }
  destruct fuel; simpl emit; apply Hbody.
Qed.


(** C10: right after a call of [emit] that returned [true], every record
    left under the event is persistent, whatever the callbacks did during the
    dispatch, registrations with [once] included. *)
Theorem emit_leaves_only_persistent
    (behaviour : cb -> payload -> prog) (fuel : nat) (event : string)
    (args : payload) (w w' : world) :
  emit behaviour fuel event args w = Returned true w' ->
  Forall (fun h => persistent h = true) (current event w').
Proof.
  intros He. apply emit_returned_inv in He.
  destruct He as [(Hb & _)|(_ & _ & w1 & hs1 & Hg1 & ->)]; [discriminate|].
  unfold current.
  destruct (filter persistent hs1) as [|h r] eqn:F; simpl.
  - now rewrite ObjFacts.get_delete_same.
  - rewrite ObjFacts.get_set_same, <- F.
    apply Forall_forall. intros x Hx. now apply filter_In in Hx.
Qed.

Lemma emit_leaves_only_persistent_witness :
  let w := mkWorld [("EVENT", [mkListener 0 true])] 10 [] [] in
  let args := [VNumber 42] in
  let w' := mkWorld [("EVENT", [mkListener 0 true])] 10 [] [(0, args); (1, args)] in
  emit registers_one_shot 3 "EVENT" args w = Returned true w' /\
  Forall (fun h => persistent h = true) (current "EVENT" w').
Proof.
  intros w args w'.
  assert (H : emit registers_one_shot 3 "EVENT" args w = Returned true w') by reflexivity.
  split; [exact H|].
  exact (@emit_leaves_only_persistent registers_one_shot 3 "EVENT" args w w' H).
Defined.

Lemma emit_quiet_returns behaviour fuel event args w hs :
  Obj.get event (handlers w) = Some hs ->
  hs <> [] ->
  all_quiet behaviour args hs ->
  List.length hs < fuel ->
  exists w',
    emit behaviour fuel event args w = Returned true w' /\
    Obj.get event (handlers w')
    = match filter persistent hs with [] => None | kept => Some kept end /\
    (forall event', event' <> event ->
       Obj.get event' (handlers w') = Obj.get event' (handlers w)) /\
    maxListeners w' = maxListeners w /\
    log w' = log w ++ faults behaviour args hs /\
    calls w' = calls w ++ map (invocation args) hs.
Proof.
  intros Hg Hne Hq Hlen. destruct fuel as [|f]; [lia|].
  assert (Hcur : current event w <> []) by (unfold current; now rewrite Hg).
  assert (Hd := @dispatch_quiet behaviour (emit behaviour f) event args
                  hs [] w (S f) Hg Hq Hlen).
  destruct (@emit_finish behaviour f event args w _ _ Hcur Hd Hg)
    as (w' & He & Hg' & Hoth & Hm & Hl & Hc).
  exists w'. repeat split; auto.
Qed.




Lemma filter_persistent_insert prepend l hs :
  filter persistent (insert prepend (mkListener l false) hs) = filter persistent hs.
Proof.
  destruct prepend; simpl; [reflexivity|].
  rewrite filter_app. simpl. now rewrite app_nil_r.
Qed.

Lemma In_insert prepend h hs x : In x (insert prepend h hs) <-> x = h \/ In x hs.
Proof.
  destruct prepend; simpl.
  - intuition.
  - rewrite in_app_iff. simpl. intuition.
Qed.

Lemma length_insert prepend h hs : List.length (insert prepend h hs) = S (List.length hs).
Proof. destruct prepend; simpl; [reflexivity|]. rewrite length_app. simpl. lia. Qed.




(** ** The registry invariant *)

Lemma In_keys_get (o : Obj.t (list EventListener)) k :
  In k (Obj.keys o) <-> exists hs, Obj.get k o = Some hs.
Proof.
  destruct (Obj.get k o) as [hs|] eqn:G.
  - split; [eauto|]. intros _.
    destruct (in_dec string_dec k (Obj.keys o)) as [I|NI]; [exact I|].
    apply ObjFacts.get_None_keys in NI. congruence.
  - apply ObjFacts.get_None_keys in G. split; [contradiction|].
    intros [hs [=]].
Qed.

Lemma registry_ok_handlers w1 w2 :
  handlers w1 = handlers w2 -> registry_ok w1 -> registry_ok w2.
Proof.
  unfold registry_ok, unique_keys, no_empty_entry, events. now intros ->.
Qed.

Lemma delete_ok ev w : registry_ok w -> registry_ok (with_handlers (Obj.delete ev) w).
Proof.
  intros [Hu Hn]. split.
  - now apply ObjFacts.NoDup_keys_delete.
  - now apply no_empty_delete.
Qed.

(** An assignment followed by the [length === 0] test and [delete]. *)
Lemma assign_ok ev hs w :
  registry_ok w ->
  registry_ok (if Nat.eqb (List.length hs) 0
               then with_handlers (Obj.delete ev) (with_handlers (Obj.set ev hs) w)
               else with_handlers (Obj.set ev hs) w).
Proof.
  intros [Hu Hn]. destruct hs as [|h r]; simpl; split.
  - now apply ObjFacts.NoDup_keys_delete, ObjFacts.NoDup_keys_set.
  - now apply no_empty_set_delete.
  - now apply ObjFacts.NoDup_keys_set.
  - apply no_empty_set; [discriminate | exact Hn].
Qed.

Lemma off_loop_ok evs : forall l w,
  registry_ok w ->
  NoDup evs ->
  (forall ev, In ev evs -> In ev (events w)) ->
  exists w', off_loop evs l w = Returned tt w' /\ registry_ok w'.
Proof.
  induction evs as [|ev rest IH]; intros l w Hok Hnd Hin; simpl.
  - eauto.
  - inversion Hnd as [|? ? Hnotin Hnd']; subst.
    assert (Hdel : exists w',
              off_loop rest l (with_handlers (Obj.delete ev) w) = Returned tt w' /\
              registry_ok w').
    { apply IH; [now apply delete_ok | exact Hnd' |].
      intros x Hx. unfold events. simpl. apply In_keys_get.
      rewrite ObjFacts.get_delete_other by (intros ->; contradiction).
      apply In_keys_get. apply Hin. now right. }
    destruct l as [f|]; [|exact Hdel].
    destruct (proj1 (In_keys_get (handlers w) ev) (Hin ev (or_introl eq_refl)))
      as [hs Hg].
    rewrite Hg. destruct (Nat.eqb (List.length hs) 0); [exact Hdel|].
    destruct (findIndex f hs) as [index|].
    + eexists. split; [reflexivity|]. now apply assign_ok.
    + apply IH; auto. intros x Hx. apply Hin. now right.
Qed.

Lemma off_ok event l w :
  registry_ok w -> exists w', off event l w = Returned tt w' /\ registry_ok w'.
Proof.
  intros Hok. unfold off. apply off_loop_ok; [exact Hok | |].
  - apply NoDup_filter, Hok.
  - intros ev Hev. now apply filter_In in Hev.
Qed.

Lemma new_EventEmitter_ok maxListeners : registry_ok (new_EventEmitter maxListeners).
Proof. split; constructor. Qed.

Lemma warn_inherited_fields v w :
  handlers (warn_inherited v w) = handlers w /\
  maxListeners (warn_inherited v w) = maxListeners w /\
  calls (warn_inherited v w) = calls w.
Proof.
  destruct v as [n|]; simpl; [|auto].
  destruct (maxListeners w <=? n)%Z; auto.
Qed.

Lemma on_ok event l prepend w : registry_ok w -> outcome_ok (on event l prepend w).
Proof.
  intros Hok. unfold on.
  destruct (slot_of (property_key event) w) as [hs|v|]; simpl;
    try now apply on_array_ok.
  apply (registry_ok_handlers (w1:=w)); [|exact Hok].
  symmetry. apply warn_inherited_fields.
Qed.

Lemma once_ok event l prepend w : registry_ok w -> outcome_ok (once event l prepend w).
Proof.
  intros Hok. unfold once.
  destruct (slot_of (property_key event) w) as [hs|v|]; simpl;
    try now apply once_array_ok.
  exact Hok.
Qed.

Lemma listeners_world event w :
  match listeners event w with
  | Returned _ w' => w' = w
  | Threw _ w' => w' = w
  | OutOfFuel => False
  end.
Proof. unfold listeners. now destruct (slot_of (property_key event) w). Qed.

Section Preservation.

Variable behaviour : cb -> payload -> prog.
Variable emit_rec : identifier -> payload -> world -> outcome bool.
Hypothesis emit_rec_ok :
  forall event args w, registry_ok w -> outcome_ok (emit_rec event args w).

Lemma exec_ok p : forall w, registry_ok w -> outcome_ok (exec emit_rec p w).
Proof.
  induction p as [| error | ev l prepend k IH | ev l prepend k IH
                  | ev l k IH | ev a k IH | ev k IH | k IH];
    intros w Hok; simpl.
  - exact Hok.
  - exact Hok.
  - pose proof (on_ok ev l prepend Hok) as Hr.
    destruct (on ev l prepend w) as [[] w'|error w'|]; simpl in Hr;
      [now apply IH | exact Hr | exact I].
  - pose proof (once_ok ev l prepend Hok) as Hr.
    destruct (once ev l prepend w) as [[] w'|error w'|]; simpl in Hr;
      [now apply IH | exact Hr | exact I].
  - destruct (off_ok ev l Hok) as (w' & -> & Hok'). now apply IH.
  - pose proof (emit_rec_ok ev a Hok) as Hr.
    destruct (emit_rec ev a w) as [b w'|error w'|]; simpl in Hr; [| |exact I];
      now apply IH.
  - pose proof (listeners_world ev w) as Hr.
    destruct (listeners ev w) as [cbs w'|error w'|]; [| |exact I]; subst w'.
    + now apply IH.
    + exact Hok.
  - now apply IH.
Qed.

Lemma dispatch_ok steps : forall event args i w,
  registry_ok w -> outcome_ok (dispatch behaviour emit_rec steps event args i w).
Proof.
  induction steps as [|n IH]; intros event args i w Hok; simpl; [exact I|].
  destruct (slot_of (property_key event) w) as [hs|v|]; [| |exact Hok].
  2:{ simpl. apply (registry_ok_handlers (w1:=w)); [|exact Hok].
      symmetry. apply log_errors_fields. }
  destruct (nth_error hs i) as [h|]; [|exact Hok].
  pose proof (@exec_ok (behaviour (listener h) args)
                (record_call (listener h) args w)
                (registry_ok_handlers (w1:=w) _ eq_refl Hok)) as Hr.
  destruct (exec emit_rec (behaviour (listener h) args)
              (record_call (listener h) args w)) as [[] w'|error w'|];
    simpl in Hr; [| |exact I].
  - now apply IH.
  - apply IH. exact (registry_ok_handlers (w1:=w') _ eq_refl Hr).
Qed.

Lemma emit_body_ok steps event args w :
  registry_ok w -> outcome_ok (emit_body behaviour emit_rec steps event args w).
Proof.
  intros Hok. unfold emit_body.
  destruct (nothing_to_call (slot_of (property_key event) w)); [exact Hok|].
  pose proof (dispatch_ok steps event args 0 Hok) as Hr.
  destruct (dispatch behaviour emit_rec steps event args 0 w) as [[] w1|error w1|];
    simpl in Hr; [| exact Hr | exact I].
  destruct (slot_of (property_key event) w1) as [hs1|v|]; [|exact Hr|exact Hr].
  simpl. now apply assign_ok.
Qed.

End Preservation.

Lemma emit_ok behaviour fuel : forall event args w,
  registry_ok w -> outcome_ok (emit behaviour fuel event args w).
Proof.
  induction fuel as [|f IH]; intros event args w Hok; simpl emit.
  - apply emit_body_ok; [|exact Hok]. intros; exact I.
  - apply emit_body_ok; [exact IH | exact Hok].
Qed.

Lemma filter_all (A : Type) (f : A -> bool) (xs : list A) :
  (forall x, In x xs -> f x = true) -> filter f xs = xs.
Proof.
  induction xs as [|x r IH]; intros H; simpl; [reflexivity|].
  rewrite (H x (or_introl eq_refl)). f_equal. apply IH. intros; apply H; now right.
Qed.

Lemma events_have_listeners w (event : string) :
  registry_ok w ->
  (In event (events w)
   <-> exists cbs, listeners event w = Returned cbs w /\ cbs <> []).
Proof.
  intros [_ Hn]. unfold events, listeners, slot_of. simpl property_key.
  rewrite In_keys_get. split.
  - intros [hs Hg]. rewrite Hg. pose proof (no_empty_get event Hn Hg).
    exists (map listener hs). split; [reflexivity|]. now destruct hs.
  - destruct (Obj.get event (handlers w)) as [hs|]; [eauto|].
    intros (cbs & H & Hne). destruct (object_prototype event); [discriminate|].
    injection H as <-. congruence.
Qed.



(** ** Scenarios *)

(** The store lists array indices first, then the other keys as created. *)
Example keys_order :
  Obj.keys (Obj.set "2" 0 (Obj.set "b" 1 (Obj.set "10" 2
             (Obj.set "a" 3 (Obj.set "01" 4 (Obj.empty nat))))))
  = ["2"; "10"; "01"; "a"; "b"].
Proof. reflexivity. Qed.

Example exceeded_message_default :
  exceeded_message (maxListeners (new_EventEmitter None))
  = "exceeded maximum (10) number of listeners".
Proof. reflexivity. Qed.

(** "should still add multiple listeners even if max is exceeded" *)
Example still_adds_when_maximum_exceeded :
  exists w,
    register_all "EVENT" [mkRegistration false 0 false; mkRegistration false 1 false]
      (new_EventEmitter (Some 1%Z)) = Returned tt w /\
    listeners "EVENT" w = Returned [0; 1] w /\
    log w = [LogWarn "exceeded maximum (1) number of listeners"].
Proof. eexists. split; [reflexivity|]. split; reflexivity. Qed.

(** "should emit for all listeners of the event even if one throws" *)
Example emits_for_all_even_if_one_throws :
  let payload := [VString "payload"] in
  exists w0 w w',
    register_all "EVENT" [mkRegistration false 1 false; mkRegistration false 0 false]
      (new_EventEmitter None) = Returned tt w0 /\
    on "OTHER_EVENT" 2 false w0 = Returned tt w /\
    emit second_throws 3 "EVENT" payload w = Returned true w' /\
    calls w' = [(1, payload); (0, payload)] /\
    log w' = [LogError (VError "boom")].
Proof.
  do 3 eexists. split; [reflexivity|]. split; [reflexivity|].
  split; [reflexivity|]. split; reflexivity.
Qed.

(** "should not remove identical callbacks for `on` and `once` listeners" *)
Example off_removes_one_of_identical_callbacks :
  let payload := [VString "payload"] in
  exists w w1 w2,
    register_all "EVENT"
      [mkRegistration false 0 false; mkRegistration false 0 false;
       mkRegistration true 0 false; mkRegistration true 0 false]
      (new_EventEmitter None) = Returned tt w /\
    off (Some (Name "EVENT")) (Some 0) w = Returned tt w1 /\
    emit all_return 4 "EVENT" payload w1 = Returned true w2 /\
    calls w2 = [(0, payload); (0, payload); (0, payload)].
Proof.
  do 3 eexists. split; [reflexivity|]. split; [reflexivity|]. split; reflexivity.
Qed.

(** "should remove all listeners for all events, if no event is provided" *)
Example off_without_arguments_clears :
  exists w0 w w',
    register_all "EVENT" [mkRegistration false 0 false; mkRegistration true 1 false]
      (new_EventEmitter None) = Returned tt w0 /\
    on "OTHER_EVENT" 2 false w0 = Returned tt w /\
    off None None w = Returned tt w' /\
    events w' = [] /\
    emit all_return 3 "EVENT" [] w' = Returned false w' /\
    emit all_return 3 "OTHER_EVENT" [] w' = Returned false w'.
Proof.
  do 3 eexists. split; [reflexivity|]. split; [reflexivity|]. split; [reflexivity|].
  split; [reflexivity|]. split; reflexivity.
Qed.

(** A persistent and a one-shot listener over three calls of [emit]. *)
Example persistent_and_one_shot :
  exists w w1 w2 w3,
    register_all "X" [mkRegistration false 0 false; mkRegistration true 1 false]
      (new_EventEmitter None) = Returned tt w /\
    emit all_return 3 "X" [VNumber 42] w = Returned true w1 /\
    events w1 = ["X"] /\
    emit all_return 3 "X" [VNumber 7] w1 = Returned true w2 /\
    calls w2 = [(0, [VNumber 42]); (1, [VNumber 42]); (0, [VNumber 7])] /\
    off (Some (Name "X")) None w2 = Returned tt w3 /\
    emit all_return 3 "X" [VNumber 1] w3 = Returned false w3.
Proof.
  do 4 eexists. split; [reflexivity|]. split; [reflexivity|]. split; [reflexivity|].
  split; [reflexivity|]. split; [reflexivity|]. split; reflexivity.
Qed.

(** The loop reads the array by index while callbacks may change it: a
    callback that removes itself moves the next record into its own slot,
    and that record is passed over. *)
Example self_removal_skips_next_listener :
  exists w w',
    register_all "EVENT"
      [mkRegistration false 0 false; mkRegistration false 1 false;
       mkRegistration false 2 false]
      (new_EventEmitter None) = Returned tt w /\
    emit removes_itself 4 "EVENT" [] w = Returned true w' /\
    calls w' = [(0, []); (2, [])] /\
    listeners "EVENT" w' = Returned [1; 2] w'.
Proof.
  do 2 eexists. split; [reflexivity|]. split; [reflexivity|]. split; reflexivity.
Qed.

(** When a callback removes the event's last listeners, the loop condition
    reads [length] of [undefined]: [emit] throws. *)
Example clearing_the_event_makes_emit_throw :
  exists w w',
    register_all "EVENT" [mkRegistration false 0 false; mkRegistration false 1 false]
      (new_EventEmitter None) = Returned tt w /\
    emit clears_event 4 "EVENT" [] w = Threw (type_error "length") w' /\
    calls w' = [(0, [])] /\
    events w' = [].
Proof.
  do 2 eexists. split; [reflexivity|]. split; [reflexivity|]. split; reflexivity.
Qed.

(** The members that [handlers] inherits from [Object.prototype]: under the
    name "constructor" nothing can be registered, [listeners] throws, and
    [emit] logs one error for the one index below the length of the
    function and throws; under "toString", a function of length 0, [emit]
    returns [false]. *)
Example inherited_names :
  let w := new_EventEmitter None in
  on "constructor" 0 false w = Threw (not_a_function "push") w /\
  listeners "constructor" w = Threw not_iterable w /\
  emit all_return 1 "constructor" [] w
  = Threw (not_a_function "filter") (log_error (type_error "listener") w) /\
  emit all_return 1 "toString" [] w = Returned false w /\
  emit all_return 1 "__proto__" [] w = Threw (not_a_function "filter") w /\
  events w = [].
Proof. repeat split. Qed.

(** An event given as a number is the event of its decimal numeral, except
    for [off], which compares it with the keys and finds none equal. *)
Example numeric_identifier :
  exists w w',
    on (Index 1) 0 false (new_EventEmitter None) = Returned tt w /\
    events w = ["1"] /\
    listeners "1" w = Returned [0] w /\
    off (Some (Index 1)) None w = Returned tt w /\
    emit all_return 2 (Index 1) [] w = Returned true w' /\
    calls w' = [(0, [])].
Proof.
  do 2 eexists. split; [reflexivity|]. split; [reflexivity|]. split; [reflexivity|].
  split; [reflexivity|]. split; reflexivity.
Qed.

(** * Further properties of the methods *)

(** ** [off] without a listener *)

Lemma delete_with_handlers_absent ev w :
  Obj.get ev (handlers w) = None -> with_handlers (Obj.delete ev) w = w.
Proof.
  intros H. unfold with_handlers. rewrite ObjFacts.delete_absent by exact H.
  apply world_eta.
Qed.

Lemma keys_delete (o : Obj.t (list EventListener)) k :
  Obj.keys (Obj.delete k o) = filter (fun k' => negb (String.eqb k k')) (Obj.keys o).
Proof.
  induction o as [|[k0 v0] r IH]; simpl; [reflexivity|].
  destruct (String.eqb k k0); simpl; now rewrite IH.
Qed.

Lemma off_loop_all evs : forall w,
  exists w',
    off_loop evs None w = Returned tt w' /\
    maxListeners w' = maxListeners w /\ log w' = log w /\ calls w' = calls w /\
    (forall kv, In kv (handlers w') <-> In kv (handlers w) /\ ~ In (fst kv) evs).
Proof.
  induction evs as [|ev rest IH]; intros w; simpl.
  - exists w. repeat split; auto; tauto.
  - destruct (IH (with_handlers (Obj.delete ev) w)) as (w' & Ho & Hm & Hl & Hc & Hin).
    exists w'. split; [exact Ho|]. repeat split; auto.
    + apply Hin in H. simpl in H. destruct H as [H _]. now apply ObjFacts.In_delete in H.
    + apply Hin in H. simpl in H. destruct H as [H Hr].
      apply ObjFacts.In_delete in H. intros [E|I]; [|contradiction].
      destruct H as [_ H]. congruence.
    + intros [Hkv Hno]. apply Hin. simpl. split.
      * apply ObjFacts.In_delete. split; [exact Hkv|]. intros E. apply Hno. now left.
      * intros I. apply Hno. now right.
Qed.



Lemma off_loop_named event n : forall w,
  off_loop (repeat event (S n)) None w
  = Returned tt (with_handlers (Obj.delete event) w).
Proof.
  induction n as [|n IH]; intros w.
  - reflexivity.
  - change (off_loop (repeat event (S (S n))) None w)
      with (off_loop (repeat event (S n)) None (with_handlers (Obj.delete event) w)).
    rewrite IH. f_equal.
    apply delete_with_handlers_absent. simpl. apply ObjFacts.get_delete_same.
Qed.

Lemma filter_named_repeat event ks :
  filter (fun item => String.eqb item event) ks
  = repeat event (List.length (filter (fun item => String.eqb item event) ks)).
Proof.
  induction ks as [|k r IH]; simpl; [reflexivity|].
  destruct (String.eqb_spec k event) as [->|]; simpl; [now f_equal | exact IH].
Qed.

Lemma off_event_exact (event : string) w :
  off (Some (Name event)) None w = Returned tt (with_handlers (Obj.delete event) w).
Proof.
  unfold off. simpl same_name. rewrite filter_named_repeat.
  destruct (List.length (filter (fun item => String.eqb item event) (events w)))
    as [|n] eqn:E.
  - simpl. f_equal. symmetry. apply delete_with_handlers_absent.
    apply ObjFacts.get_None_keys. intros I.
    assert (Hin : In event (filter (fun item => String.eqb item event) (events w)))
      by (apply filter_named; auto).
    destruct (filter (fun item => String.eqb item event) (events w));
      [contradiction | discriminate].
  - apply off_loop_named.
Qed.

(** [item === event] is false for every key when [event] is a number. *)
Lemma off_index n l w : off (Some (Index n)) l w = Returned tt w.
Proof.
  unfold off. simpl same_name.
  replace (filter (fun _ : string => false) (events w)) with (@nil string);
    [reflexivity|].
  induction (events w) as [|k r IH]; simpl; auto.
Qed.

(** X2: [off(event)] with no listener and the event given as a string drops
    exactly that event: its key is gone, and [listeners(event)] returns the
    empty array unless [Object.prototype] defines the name; every other
    event keeps its listeners and its place in [events()], nothing is logged
    or called; on an event that is not registered it changes nothing.  With
    the event given as a number it changes nothing either, registered or
    not. *)
Theorem off_event_drops_event (event : string) (w : world) :
  exists w',
    off (Some (Name event)) None w = Returned tt w' /\
    Obj.get event (handlers w') = None /\
    (plain event -> listeners event w' = Returned [] w') /\
    ~ In event (events w') /\
    events w' = filter (fun e => negb (String.eqb event e)) (events w) /\
    (forall event', event' <> event ->
       Obj.get event' (handlers w') = Obj.get event' (handlers w)) /\
    maxListeners w' = maxListeners w /\ log w' = log w /\ calls w' = calls w /\
    (~ In event (events w) -> w' = w) /\
    (forall n, off (Some (Index n)) None w = Returned tt w).
Proof.
  exists (with_handlers (Obj.delete event) w). split.
  - apply off_event_exact.
  - split; [simpl; apply ObjFacts.get_delete_same|].
    split.
    { intros Hp. rewrite (@listeners_returns (Name event)) by now left.
      unfold callbacks, current. simpl. now rewrite ObjFacts.get_delete_same. }
    split; [apply ObjFacts.get_None_keys; simpl; apply ObjFacts.get_delete_same|].
    split; [apply keys_delete|].
    split; [intros event' Hev; simpl; now apply ObjFacts.get_delete_other|].
    split; [reflexivity|]. split; [reflexivity|]. split; [reflexivity|].
    split.
    + intros Hno. apply delete_with_handlers_absent. now apply ObjFacts.get_None_keys.
    + intros n. apply off_index.
Qed.

Lemma off_event_drops_event_witness :
  let w := mkWorld [("1", [mkListener 2 true]);
                    ("EVENT", [mkListener 0 true; mkListener 1 false])] 10 [] [] in
  (plain "EVENT" /\ "1" <> "EVENT" /\ ~ In "OTHER_EVENT" (events w)) /\
  (exists w',
     off (Some (Name "EVENT")) None w = Returned tt w' /\
     listeners "EVENT" w' = Returned [] w' /\
     Obj.get "1" (handlers w') = Obj.get "1" (handlers w)) /\
  (exists w', off (Some (Name "OTHER_EVENT")) None w = Returned tt w' /\ w' = w).
Proof.
  intros w.
  assert (H1 : plain "EVENT") by reflexivity.
  assert (H2 : "1" <> "EVENT") by discriminate.
  assert (H3 : ~ In "OTHER_EVENT" (events w)).
  { simpl. intros [H|[H|[]]]; discriminate. }
  split; [auto|]. split.
  - destruct (off_event_drops_event "EVENT" w)
      as (w' & Ho & _ & Hl & _ & _ & Hother & _).
    exists w'. split; [exact Ho|]. split; [exact (Hl H1) | exact (Hother "1" H2)].
  - destruct (off_event_drops_event "OTHER_EVENT" w)
      as (w' & Ho & _ & _ & _ & _ & _ & _ & _ & _ & Hsame & _).
    exists w'. split; [exact Ho | exact (Hsame H3)].
Defined.

(** ** [off] with a listener *)

Lemma existsb_findIndex cb0 hs :
  existsb (fun h => Nat.eqb (listener h) cb0) hs
  = match findIndex cb0 hs with Some _ => true | None => false end.
Proof.
  induction hs as [|h r IH]; simpl; [reflexivity|].
  destruct (Nat.eqb (listener h) cb0); simpl; [reflexivity|].
  rewrite IH. now destruct (findIndex cb0 r).
Qed.

Lemma current_assign ev hs w : current ev (assign ev hs w) = hs.
Proof.
  unfold assign, current. destruct hs as [|h r]; simpl.
  - now rewrite ObjFacts.get_delete_same.
  - now rewrite ObjFacts.get_set_same.
Qed.

Lemma get_assign_other ev ev' hs w :
  ev' <> ev -> Obj.get ev' (handlers (assign ev hs w)) = Obj.get ev' (handlers w).
Proof.
  intros Hne. unfold assign. destruct (Nat.eqb (List.length hs) 0); simpl;
    rewrite ?ObjFacts.get_delete_other by exact Hne;
    now rewrite ObjFacts.get_set_other by exact Hne.
Qed.

Lemma assign_fields ev hs w :
  maxListeners (assign ev hs w) = maxListeners w /\
  log (assign ev hs w) = log w /\ calls (assign ev hs w) = calls w.
Proof. unfold assign. now destruct (Nat.eqb (List.length hs) 0). Qed.

Lemma off_loop_callback cb0 w evs :
  no_empty_entry w ->
  (forall ev, In ev evs -> In ev (events w)) ->
  off_loop evs (Some cb0) w
  = Returned tt match find (registered cb0 w) evs with
                | None => w
                | Some e0 => assign e0 (remove_first cb0 (current e0 w)) w
                end.
Proof.
  intros Hne. induction evs as [|ev rest IH]; intros Hin; simpl; [reflexivity|].
  destruct (proj1 (In_keys_get (handlers w) ev) (Hin ev (or_introl eq_refl)))
    as [hs Hg].
  assert (Hhs : hs <> []) by (eapply no_empty_get; eauto).
  unfold registered at 1, current at 1. rewrite Hg, existsb_findIndex.
  destruct hs as [|h r]; [congruence|].
  simpl List.length at 1. simpl Nat.eqb at 1. cbv iota.
  destruct (findIndex cb0 (h :: r)) as [index|] eqn:F.
  - unfold assign, current. rewrite Hg, (splice_findIndex _ _ F). reflexivity.
  - apply IH. intros x Hx. apply Hin. now right.
Qed.

Lemma length_remove_first_found cb0 hs :
  existsb (fun h => Nat.eqb (listener h) cb0) hs = true ->
  List.length hs = S (List.length (remove_first cb0 hs)).
Proof.
  induction hs as [|h r IH]; simpl; [discriminate|].
  destruct (Nat.eqb (listener h) cb0); simpl; [reflexivity|].
  intros H. now rewrite <- IH.
Qed.

(** X3: [off] with a listener, with or without an event, removes at most one
    record in the whole registry: the earliest record of that callback under
    the first event, in the order of [events()] and among the events the call
    covers, that has one.  Every other event stays as it was, nothing is
    logged or called, and without such an event nothing changes. *)
Theorem off_with_listener_removes_one
    (event : option identifier) (cb0 : cb) (w : world) :
  no_empty_entry w ->
  exists w',
    off event (Some cb0) w = Returned tt w' /\
    maxListeners w' = maxListeners w /\ log w' = log w /\ calls w' = calls w /\
    match find (registered cb0 w) (scope event w) with
    | None => w' = w
    | Some e0 =>
        (exists cbs, listeners e0 w = Returned cbs w /\ In cb0 cbs) /\
        current e0 w' = remove_first cb0 (current e0 w) /\
        List.length (current e0 w) = S (List.length (current e0 w')) /\
        (forall event', event' <> e0 ->
           Obj.get event' (handlers w') = Obj.get event' (handlers w))
    end.
Proof.
  intros Hne. unfold off. fold (scope event w).
  rewrite (@off_loop_callback cb0 w (scope event w) Hne)
    by (intros ev Hev; unfold scope in Hev; now apply filter_In in Hev).
  eexists. split; [reflexivity|].
  destruct (find (registered cb0 w) (scope event w)) as [e0|] eqn:F; [|auto].
  destruct (assign_fields e0 (remove_first cb0 (current e0 w)) w) as (Hm & Hl & Hc).
  repeat split; auto.
  - apply find_some in F. destruct F as [_ F]. unfold registered in F.
    apply existsb_exists in F. destruct F as (h & Hh & E).
    apply Nat.eqb_eq in E. subst cb0.
    assert (Hown : Obj.get e0 (handlers w) <> None).
    { unfold current in Hh. destruct (Obj.get e0 (handlers w)); [discriminate|].
      destruct Hh. }
    exists (callbacks e0 w). split.
    + apply (@listeners_returns (Name e0)). now right.
    + unfold callbacks. now apply in_map.
  - apply current_assign.
  - rewrite current_assign. apply find_some in F. destruct F as [_ F].
    now apply length_remove_first_found.
  - intros event' Hev. now apply get_assign_other.
Qed.

Lemma off_with_listener_removes_one_witness :
  let w := mkWorld [("EVENT", [mkListener 3 true; mkListener 7 true]);
                    ("OTHER_EVENT", [mkListener 7 true])] 10 [] [] in
  no_empty_entry w /\
  exists w',
    off None (Some 7) w = Returned tt w' /\
    maxListeners w' = maxListeners w /\ log w' = log w /\ calls w' = calls w /\
    match find (registered 7 w) (scope None w) with
    | None => w' = w
    | Some e0 =>
        (exists cbs, listeners e0 w = Returned cbs w /\ In 7 cbs) /\
        current e0 w' = remove_first 7 (current e0 w) /\
        List.length (current e0 w) = S (List.length (current e0 w')) /\
        (forall event', event' <> e0 ->
           Obj.get event' (handlers w') = Obj.get event' (handlers w))
    end.
Proof.
  intros w.
  assert (H : no_empty_entry w) by (repeat constructor; discriminate).
  split; [exact H|]. exact (@off_with_listener_removes_one None 7 w H).
Defined.

(** ** Registering and removing again *)

Lemma delete_place k v n (o : Obj.t (list EventListener)) :
  Obj.get k o = None -> Obj.delete k (Obj.place_index n k v o) = o.
Proof.
  induction o as [|[k1 v1] r IH]; simpl.
  - now rewrite String.eqb_refl.
  - destruct (String.eqb_spec k k1) as [->|Hk]; [discriminate|]. intros H.
    destruct (Obj.array_index k1) as [m|]; [destruct (m <? n)%N|]; simpl;
      rewrite ?String.eqb_refl; simpl;
      (destruct (String.eqb_spec k k1); [contradiction|]); simpl; f_equal; auto;
      now apply ObjFacts.delete_absent.
Qed.

Lemma delete_define k v (o : Obj.t (list EventListener)) :
  Obj.get k o = None -> Obj.delete k (Obj.define k v o) = o.
Proof.
  intros H. unfold Obj.define. destruct (Obj.array_index k).
  - now apply delete_place.
  - unfold Obj.delete. rewrite filter_app. simpl. rewrite String.eqb_refl. simpl.
    rewrite app_nil_r. now apply ObjFacts.delete_absent.
Qed.

Lemma replace_restore k v x (o : Obj.t (list EventListener)) :
  Obj.get k o = Some x -> Obj.replace k x (Obj.replace k v o) = o.
Proof.
  induction o as [|[k1 v1] r IH]; simpl; [discriminate|].
  destruct (String.eqb_spec k k1) as [->|Hk]; simpl.
  - intros [= ->]. now rewrite String.eqb_refl.
  - intros H. destruct (String.eqb_spec k k1); [contradiction|]. now rewrite IH.
Qed.

Lemma set_restore k v x (o : Obj.t (list EventListener)) :
  Obj.get k o = Some x -> Obj.set k x (Obj.set k v o) = o.
Proof.
  intros H. unfold Obj.set at 1. rewrite ObjFacts.get_set_same.
  unfold Obj.set. rewrite H. now apply replace_restore.
Qed.

Lemma handlers_register event r w :
  handlers (register_array event r w)
  = Obj.set event
      (insert (at_head r) (mkListener (callback r) (negb (one_shot r))) (current event w))
      (handlers w).
Proof.
  unfold register_array. destruct (one_shot r); [apply handlers_once | apply handlers_on].
Qed.

Lemma register_fields event r w :
  maxListeners (register_array event r w) = maxListeners w /\
  calls (register_array event r w) = calls w.
Proof.
  unfold register_array. destruct (one_shot r).
  - destruct (once_fields event (callback r) (at_head r) w) as (? & _ & ?). auto.
  - apply on_fields.
Qed.

Lemma register_no_empty event r w :
  no_empty_entry w -> no_empty_entry (register_array event r w).
Proof.
  unfold no_empty_entry. rewrite handlers_register. apply no_empty_set, insert_not_nil.
Qed.

Lemma remove_first_app_absent cb0 hs h :
  findIndex cb0 hs = None -> listener h = cb0 ->
  remove_first cb0 (hs ++ [h]) = hs.
Proof.
  intros Hno Hh. induction hs as [|x r IH]; simpl in *.
  - now rewrite Hh, Nat.eqb_refl.
  - destruct (Nat.eqb (listener x) cb0); [discriminate|].
    destruct (findIndex cb0 r); [discriminate|]. now rewrite IH.
Qed.

Lemma remove_first_app_present cb0 hs h :
  findIndex cb0 hs <> None ->
  remove_first cb0 (hs ++ [h]) = remove_first cb0 hs ++ [h].
Proof.
  induction hs as [|x r IH]; simpl; [congruence|].
  destruct (Nat.eqb (listener x) cb0); [reflexivity|].
  destruct (findIndex cb0 r); simpl; intros H; [|congruence].
  f_equal. apply IH. discriminate.
Qed.

Lemma off_after_register event r w :
  no_empty_entry w ->
  off (Some (Name event)) (Some (callback r)) (register_array event r w)
  = Returned tt
      (assign event
         (remove_first (callback r)
            (insert (at_head r) (mkListener (callback r) (negb (one_shot r)))
               (current event w)))
         (register_array event r w)).
Proof.
  intros Hne.
  rewrite (off_event_listener event (callback r) (register_no_empty event r Hne)).
  rewrite handlers_register, ObjFacts.get_set_same.
  set (hs := insert (at_head r) (mkListener (callback r) (negb (one_shot r)))
               (current event w)).
  destruct (findIndex (callback r) hs) as [index|] eqn:F.
  - now rewrite (splice_findIndex _ _ F).
  - exfalso.
    apply (proj1 (findIndex_None (callback r) hs) F
             (mkListener (callback r) (negb (one_shot r)))); [|reflexivity].
    apply In_insert. now left.
Qed.

Lemma handlers_assign_restore event v w1 w :
  no_empty_entry w ->
  handlers w1 = Obj.set event v (handlers w) ->
  handlers (assign event (current event w) w1) = handlers w.
Proof.
  intros Hne Hw1. unfold assign, current.
  destruct (Obj.get event (handlers w)) as [cur|] eqn:G.
  - pose proof (no_empty_get event Hne G) as Hcur.
    destruct cur as [|h t]; [congruence|]. simpl. rewrite Hw1.
    now apply set_restore.
  - simpl. rewrite Hw1, set_after_create by exact G.
    unfold Obj.set. rewrite G. now apply delete_define.
Qed.

(** X4: under a name that [Object.prototype] does not define, given as a
    string, registering a callback and removing it again with [off(event,
    callback)] gives back the registry as it was, provided the new record is
    the earliest one of that callback: it was put at the head, or the callback
    was not registered under the event.  Otherwise [off] takes the older
    record and the new one stays at the tail. *)
Theorem register_then_off (event : string) (r : registration) (w : world) :
  plain event ->
  no_empty_entry w ->
  exists cbs w0 w',
    listeners event w = Returned cbs w /\
    register event r w = Returned tt w0 /\
    off (Some (Name event)) (Some (callback r)) w0 = Returned tt w' /\
    calls w' = calls w /\ maxListeners w' = maxListeners w /\
    (at_head r = true \/ ~ In (callback r) cbs -> handlers w' = handlers w) /\
    (at_head r = false -> In (callback r) cbs ->
     current event w'
     = remove_first (callback r) (current event w) ++ [record_of r]).
Proof.
  intros Hplain Hne.
  exists (callbacks event w), (register_array event r w).
  rewrite (off_after_register event r Hne).
  eexists. split; [apply (@listeners_returns (Name event)); now left|].
  split; [apply (@register_returns (Name event)); now left|].
  split; [reflexivity|].
  destruct (assign_fields event
              (remove_first (callback r)
                 (insert (at_head r) (mkListener (callback r) (negb (one_shot r)))
                    (current event w)))
              (register_array event r w)) as (Hm & _ & Hc).
  destruct (register_fields event r w) as (Hm' & Hc').
  split; [congruence|]. split; [congruence|]. split.
  - intros Hfirst.
    assert (E : remove_first (callback r)
                  (insert (at_head r) (mkListener (callback r) (negb (one_shot r)))
                     (current event w)) = current event w).
    { destruct (at_head r) eqn:P; simpl.
      - now rewrite Nat.eqb_refl.
      - destruct Hfirst as [|Hno]; [discriminate|].
        apply remove_first_app_absent; [|reflexivity].
        apply findIndex_None. intros h Hh E. apply Hno. rewrite <- E.
        unfold callbacks. now apply in_map. }
    rewrite E.
    exact (@handlers_assign_restore event _ _ w Hne (handlers_register event r w)).
  - intros P Hin. rewrite current_assign, P. simpl.
    apply remove_first_app_present. intros F.
    pose proof (proj1 (findIndex_None _ _) F) as F'.
    unfold callbacks in Hin.
    apply in_map_iff in Hin. destruct Hin as (h & E & Hh). exact (F' h Hh E).
Qed.

Lemma register_then_off_witness :
  let w := mkWorld [("EVENT", [mkListener 3 true])] 10 [] [] in
  let r := mkRegistration true 7 false in
  (plain "EVENT" /\ no_empty_entry w /\ at_head r = false /\
   ~ In (callback r) [3]) /\
  listeners "EVENT" w = Returned [3] w /\
  exists w0 w',
    register "EVENT" r w = Returned tt w0 /\
    off (Some (Name "EVENT")) (Some (callback r)) w0 = Returned tt w' /\
    handlers w' = handlers w.
Proof.
  intros w r.
  assert (H0 : plain "EVENT") by reflexivity.
  assert (H1 : no_empty_entry w) by (repeat constructor; discriminate).
  assert (H2 : ~ In (callback r) [3]).
  { intros [E|[]]. discriminate. }
  split; [auto|]. split; [reflexivity|].
  destruct (@register_then_off "EVENT" r w H0 H1)
    as (cbs & w0 & w' & Hl & Hr & Hoff & _ & _ & Hback & _).
  exists w0, w'. split; [exact Hr|]. split; [exact Hoff|].
  apply Hback. right. injection Hl as <-. exact H2.
Defined.

(** ** The warning of [on] *)

Lemma length_current_register event r w :
  List.length (current event (register_array event r w)) = S (List.length (current event w)).
Proof.
  unfold register_array. destruct (one_shot r);
    [rewrite current_once | rewrite current_on]; apply length_insert.
Qed.

(** X5: over a run of [on] registrations under one event, whose name
    [Object.prototype] does not define, the registrations that bring the
    sequence up to the configured maximum are silent and each later one logs
    one warning: [n] calls log [n] minus the room that was left, and nothing
    when that is negative. *)
Theorem on_warnings_count (event : identifier) (rs : list registration) (w : world) :
  plain (property_key event) ->
  (forall r, In r rs -> one_shot r = false) ->
  exists w',
    register_all event rs w = Returned tt w' /\
    log w'
    = log w
      ++ repeat (LogWarn (exceeded_message (maxListeners w)))
           (List.length rs
            - Z.to_nat (maxListeners w
                        - Z.of_nat (List.length (current (property_key event) w)))).
Proof.
  intros Hplain Hon.
  exists (register_all_array (property_key event) rs w).
  split; [apply register_all_returns; now left|].
  clear Hplain. generalize (property_key event) as key. intros key.
  revert w. induction rs as [|r rs IH]; intros w.
  - simpl. now rewrite app_nil_r.
  - change (register_all_array key (r :: rs) w)
      with (register_all_array key rs (register_array key r w)).
    rewrite IH by (intros x Hx; apply Hon; now right).
    rewrite length_current_register.
    destruct (register_fields key r w) as (Hm & _). rewrite Hm.
    unfold register_array. rewrite (Hon r (or_introl eq_refl)), log_on.
    rewrite <- app_assoc. f_equal.
    destruct (Z.leb_spec (maxListeners w) (Z.of_nat (List.length (current key w))))
      as [Hle|Hgt].
    + replace (Z.to_nat (maxListeners w - Z.of_nat (List.length (current key w))))
        with 0 by lia.
      replace (Z.to_nat (maxListeners w - Z.of_nat (S (List.length (current key w)))))
        with 0 by lia.
      simpl. rewrite Nat.sub_0_r. reflexivity.
    + simpl app. f_equal. simpl List.length. lia.
Qed.

Lemma on_warnings_count_witness :
  let w := new_EventEmitter (Some 2%Z) in
  let rs := [mkRegistration false 0 false; mkRegistration false 1 true;
             mkRegistration false 2 false; mkRegistration false 3 false] in
  (plain (property_key (Index 7)) /\
   (forall r, In r rs -> one_shot r = false)) /\
  exists w',
    register_all (Index 7) rs w = Returned tt w' /\
    log w'
    = log w
      ++ repeat (LogWarn (exceeded_message (maxListeners w)))
           (List.length rs
            - Z.to_nat (maxListeners w
                        - Z.of_nat (List.length (current (property_key (Index 7)) w)))).
Proof.
  intros w rs.
  assert (H0 : plain (property_key (Index 7))) by reflexivity.
  assert (H : forall r, In r rs -> one_shot r = false).
  { intros r [<-|[<-|[<-|[<-|[]]]]]; reflexivity. }
  split; [auto|]. exact (@on_warnings_count (Index 7) rs w H0 H).
Defined.

(** ** The configured maximum *)

Lemma off_loop_maxListeners evs : forall l w,
  outcome_has (fun w' => maxListeners w' = maxListeners w) (off_loop evs l w).
Proof.
  induction evs as [|ev rest IH]; intros l w; simpl; [reflexivity|].
  destruct l as [f|]; [|apply (IH None (with_handlers (Obj.delete ev) w))].
  destruct (Obj.get ev (handlers w)) as [hs|]; [|reflexivity].
  destruct (Nat.eqb (List.length hs) 0);
    [apply (IH (Some f) (with_handlers (Obj.delete ev) w))|].
  destruct (findIndex f hs); [|apply IH].
  simpl. now destruct (Nat.eqb (List.length (splice n hs)) 0).
Qed.

Lemma off_maxListeners event l w :
  outcome_has (fun w' => maxListeners w' = maxListeners w) (off event l w).
Proof. unfold off. apply off_loop_maxListeners. Qed.

Lemma outcome_has_trans (A : Type) m (r : outcome A) w :
  maxListeners w = m ->
  outcome_has (fun w' => maxListeners w' = maxListeners w) r ->
  outcome_has (fun w' => maxListeners w' = m) r.
Proof. intros <-. auto. Qed.

Lemma on_maxListeners event l prepend w :
  outcome_has (fun w' => maxListeners w' = maxListeners w) (on event l prepend w).
Proof.
  unfold on. destruct (slot_of (property_key event) w); unfold outcome_has;
    [apply on_fields | apply warn_inherited_fields | apply on_fields].
Qed.

Lemma once_maxListeners event l prepend w :
  outcome_has (fun w' => maxListeners w' = maxListeners w) (once event l prepend w).
Proof.
  unfold once. destruct (slot_of (property_key event) w); unfold outcome_has;
    [apply once_fields | reflexivity | apply once_fields].
Qed.

Section MaxListeners.

Variable behaviour : cb -> payload -> prog.
Variable emit_rec : identifier -> payload -> world -> outcome bool.
Hypothesis emit_rec_max : forall event args w,
  outcome_has (fun w' => maxListeners w' = maxListeners w) (emit_rec event args w).

Lemma exec_maxListeners p : forall w,
  outcome_has (fun w' => maxListeners w' = maxListeners w) (exec emit_rec p w).
Proof.
  induction p as [| error | ev l prepend k IH | ev l prepend k IH
                  | ev l k IH | ev a k IH | ev k IH | k IH];
    intros w; simpl; try reflexivity.
  - pose proof (on_maxListeners ev l prepend w) as Ho.
    destruct (on ev l prepend w) as [[] w'|error w'|]; simpl in Ho; auto.
    apply outcome_has_trans with (w := w'); [exact Ho | apply IH].
  - pose proof (once_maxListeners ev l prepend w) as Ho.
    destruct (once ev l prepend w) as [[] w'|error w'|]; simpl in Ho; auto.
    apply outcome_has_trans with (w := w'); [exact Ho | apply IH].
  - pose proof (off_maxListeners ev l w) as Ho.
    destruct (off ev l w) as [[] w'|error w'|]; simpl in Ho; auto.
    apply outcome_has_trans with (w := w'); [exact Ho | apply IH].
  - pose proof (emit_rec_max ev a w) as Hr.
    destruct (emit_rec ev a w) as [b w'|error w'|]; simpl in Hr; auto;
      (apply outcome_has_trans with (w := w'); [exact Hr | apply IH]).
  - pose proof (listeners_world ev w) as Hr.
    destruct (listeners ev w) as [cbs w'|error w'|]; [| |exact I]; subst w'.
    + apply IH.
    + reflexivity.
  - apply IH.
Qed.

Lemma dispatch_maxListeners steps : forall event args i w,
  outcome_has (fun w' => maxListeners w' = maxListeners w)
    (dispatch behaviour emit_rec steps event args i w).
Proof.
  induction steps as [|n IH]; intros event args i w; simpl; [exact I|].
  destruct (slot_of (property_key event) w) as [hs|v|]; [| |reflexivity].
  2:{ simpl. apply log_errors_fields. }
  destruct (nth_error hs i) as [h|]; [|reflexivity].
  pose proof (exec_maxListeners (behaviour (listener h) args)
                (record_call (listener h) args w)) as Hr.
  destruct (exec emit_rec (behaviour (listener h) args)
              (record_call (listener h) args w)) as [[] w'|error w'|];
    simpl in Hr; auto.
  - apply outcome_has_trans with (w := w'); [exact Hr | apply IH].
  - apply outcome_has_trans with (w := log_error error w'); [exact Hr | apply IH].
Qed.

Lemma emit_body_maxListeners steps event args w :
  outcome_has (fun w' => maxListeners w' = maxListeners w)
    (emit_body behaviour emit_rec steps event args w).
Proof.
  unfold emit_body.
  destruct (nothing_to_call (slot_of (property_key event) w)); [reflexivity|].
  pose proof (dispatch_maxListeners steps event args 0 w) as Hr.
  destruct (dispatch behaviour emit_rec steps event args 0 w) as [[] w1|error w1|];
    simpl in Hr; auto.
  destruct (slot_of (property_key event) w1) as [hs1|v|]; [|exact Hr|exact Hr].
  simpl. now destruct (Nat.eqb (List.length (filter persistent hs1)) 0).
Qed.

End MaxListeners.

Lemma emit_maxListeners behaviour fuel : forall event args w,
  outcome_has (fun w' => maxListeners w' = maxListeners w)
    (emit behaviour fuel event args w).
Proof.
  induction fuel as [|f IH]; intros event args w; simpl emit.
  - apply emit_body_maxListeners. intros; exact I.
  - apply emit_body_maxListeners. exact IH.
Qed.

(** X6: the configured maximum is never 0, since the constructor turns 0 and
    a missing argument into 10 and keeps any other number, and no method
    changes it afterwards, whatever the callbacks run by [emit] do. *)
Theorem maxListeners_is_fixed (behaviour : cb -> payload -> prog) (w : world) :
  (forall m, maxListeners (new_EventEmitter m) <> 0%Z) /\
  (forall n, n <> 0%Z -> maxListeners (new_EventEmitter (Some n)) = n) /\
  (forall event l prepend,
     outcome_has (fun w' => maxListeners w' = maxListeners w) (on event l prepend w)) /\
  (forall event l prepend,
     outcome_has (fun w' => maxListeners w' = maxListeners w)
       (once event l prepend w)) /\
  (forall event l,
     outcome_has (fun w' => maxListeners w' = maxListeners w) (off event l w)) /\
  (forall fuel event args,
     outcome_has (fun w' => maxListeners w' = maxListeners w)
       (emit behaviour fuel event args w)).
Proof.
  split.
  { intros [n|]; simpl; [|discriminate].
    destruct (Z.eqb_spec n 0); [discriminate | assumption]. }
  split.
  { intros n Hn. simpl. destruct (Z.eqb_spec n 0); [contradiction | reflexivity]. }
  split; [intros; apply on_maxListeners|].
  split; [intros; apply once_maxListeners|].
  split; [intros; apply off_maxListeners|].
  intros. apply emit_maxListeners.
Qed.

(** ** What [emit] does to the registry *)

Lemma set_same k x (o : Obj.t (list EventListener)) :
  Obj.get k o = Some x -> Obj.set k x o = o.
Proof.
  intros H. unfold Obj.set. rewrite H.
  induction o as [|[k1 v1] r IH]; simpl in *; [reflexivity|].
  destruct (String.eqb_spec k k1) as [->|Hk].
  - now injection H as ->.
  - now rewrite IH.
Qed.

Lemma filter_persistent_idem hs :
  filter persistent (filter persistent hs) = filter persistent hs.
Proof.
  apply filter_all. intros h Hh. now apply filter_In in Hh.
Qed.

Lemma emit_quiet_exact behaviour fuel event args w hs :
  Obj.get event (handlers w) = Some hs ->
  hs <> [] ->
  all_quiet behaviour args hs ->
  List.length hs < fuel ->
  emit behaviour fuel event args w
  = Returned true
      (assign event (filter persistent hs)
         (mkWorld (handlers w) (maxListeners w)
            (log w ++ faults behaviour args hs)
            (calls w ++ map (invocation args) hs))).
Proof.
  intros Hg Hne Hq Hlen. destruct fuel as [|f]; [lia|].
  assert (Hcur : current event w <> []) by (unfold current; now rewrite Hg).
  rewrite (@emit_with_listeners behaviour f event args w Hcur).
  pose proof (@dispatch_quiet behaviour (emit behaviour f) event args hs [] w (S f)
                Hg Hq Hlen) as Hd.
  change (List.length (@nil EventListener)) with 0 in Hd.
  rewrite Hd. erewrite slot_of_own by (simpl; exact Hg). reflexivity.
Qed.

(** X7: when the listeners of an event only return or throw, [emit] leaves
    under the event exactly its persistent records, in their order, and
    touches no other event; the event keeps its place in [events()] while a
    persistent record remains and leaves it otherwise; a second [emit] right
    after changes nothing in the registry, and it returns, unless no
    persistent record remained and [Object.prototype] defines the name. *)
Theorem emit_keeps_persistent_records
    (behaviour : cb -> payload -> prog) (fuel : nat) (event : string)
    (args : payload) (w : world) (hs : list EventListener) :
  Obj.get event (handlers w) = Some hs ->
  hs <> [] ->
  all_quiet behaviour args hs ->
  List.length hs < fuel ->
  exists w',
    emit behaviour fuel event args w = Returned true w' /\
    current event w' = filter persistent hs /\
    (forall event', event' <> event ->
       Obj.get event' (handlers w') = Obj.get event' (handlers w)) /\
    (filter persistent hs <> [] -> events w' = events w) /\
    (filter persistent hs = [] ->
     events w' = filter (fun e => negb (String.eqb event e)) (events w)) /\
    emit behaviour fuel event args w' <> OutOfFuel /\
    outcome_has (fun w'' => handlers w'' = handlers w')
      (emit behaviour fuel event args w') /\
    (plain event \/ filter persistent hs <> [] ->
     exists b w'',
       emit behaviour fuel event args w' = Returned b w'' /\
       handlers w'' = handlers w').
Proof.
  intros Hg Hne Hq Hlen.
  rewrite (@emit_quiet_exact behaviour fuel event args w hs Hg Hne Hq Hlen).
  set (w1 := mkWorld (handlers w) (maxListeners w)
               (log w ++ faults behaviour args hs)
               (calls w ++ map (invocation args) hs)).
  set (kept := filter persistent hs).
  exists (assign event kept w1). split; [reflexivity|].
  split; [apply current_assign|].
  split; [intros event' Hev; now rewrite get_assign_other|].
  split; [|split].
  - intros Hk. unfold assign. destruct kept as [|h r] eqn:K; [congruence|].
    simpl. unfold events. simpl. now apply ObjFacts.keys_set_present with (x := hs).
  - intros Hk. unfold assign. rewrite Hk. simpl. unfold events. simpl.
    rewrite keys_delete. f_equal. now apply ObjFacts.keys_set_present with (x := hs).
  - destruct kept as [|h r] eqn:K.
    + assert (Hgone : Obj.get event (handlers (assign event [] w1)) = None).
      { unfold assign. simpl. apply ObjFacts.get_delete_same. }
      destruct (object_prototype event) as [v|] eqn:P.
      * assert (Hs : slot_of event (assign event [] w1) = IsInherited v).
        { unfold slot_of. now rewrite Hgone, P. }
        destruct fuel as [|f]; [lia|].
        rewrite (@emit_inherited behaviour f (Name event) args _ v Hs).
        destruct (nothing_to_call (IsInherited v)).
        -- split; [discriminate|]. split; [reflexivity|]. intros _.
           now exists false, (assign event [] w1).
        -- split; [discriminate|]. split; [apply log_errors_fields|].
           intros [Hp|Hk]; [unfold plain in Hp | ]; congruence.
      * rewrite (@emit_no_listeners behaviour fuel event args (assign event [] w1)
                   (or_introl P) (current_assign event [] w1)).
        split; [discriminate|]. split; [reflexivity|]. intros _.
        now exists false, (assign event [] w1).
    + assert (Hg' : Obj.get event (handlers (assign event (h :: r) w1)) = Some (h :: r)).
      { unfold assign. simpl. apply ObjFacts.get_set_same. }
      assert (Hq' : all_quiet behaviour args (h :: r)).
      { intros x Hx. rewrite <- K in Hx. apply filter_In in Hx. now apply Hq. }
      assert (Hlen' : List.length (h :: r) < fuel).
      { rewrite <- K. pose proof (filter_length_le persistent hs). unfold kept. lia. }
      rewrite (@emit_quiet_exact behaviour fuel event args _ (h :: r) Hg'
                 ltac:(discriminate) Hq' Hlen').
      assert (Hsame : handlers
                (assign event (filter persistent (h :: r))
                   (mkWorld (handlers (assign event (h :: r) w1))
                      (maxListeners (assign event (h :: r) w1))
                      (log (assign event (h :: r) w1) ++ faults behaviour args (h :: r))
                      (calls (assign event (h :: r) w1)
                       ++ map (invocation args) (h :: r))))
              = handlers (assign event (h :: r) w1)).
      { rewrite <- K. unfold kept. rewrite filter_persistent_idem. fold kept. rewrite K.
        unfold assign at 1. simpl. now apply set_same. }
      split; [discriminate|]. split; [exact Hsame|]. intros _.
      eexists _, _. split; [reflexivity | exact Hsame].
Qed.

Lemma emit_keeps_persistent_records_witness :
  let w := mkWorld [("EVENT", [mkListener 0 true; mkListener 1 false; mkListener 2 true])]
             10 [] [] in
  let hs := [mkListener 0 true; mkListener 1 false; mkListener 2 true] in
  let args := [VNumber 42] in
  (Obj.get "EVENT" (handlers w) = Some hs /\ hs <> [] /\
   all_quiet second_throws args hs /\ List.length hs < 4 /\
   "OTHER_EVENT" <> "EVENT" /\ filter persistent hs <> [] /\ plain "EVENT") /\
  exists w',
    emit second_throws 4 "EVENT" args w = Returned true w' /\
    current "EVENT" w' = filter persistent hs /\
    Obj.get "OTHER_EVENT" (handlers w') = Obj.get "OTHER_EVENT" (handlers w) /\
    events w' = events w /\
    exists b w'',
      emit second_throws 4 "EVENT" args w' = Returned b w'' /\
      handlers w'' = handlers w'.
Proof.
  intros w hs args.
  assert (H1 : Obj.get "EVENT" (handlers w) = Some hs) by reflexivity.
  assert (H2 : hs <> []) by discriminate.
  assert (H3 : all_quiet second_throws args hs).
  { intros h [<-|[<-|[<-|[]]]]; reflexivity. }
  assert (H4 : List.length hs < 4) by (simpl; lia).
  assert (H5 : "OTHER_EVENT" <> "EVENT") by discriminate.
  assert (H6 : filter persistent hs <> []) by discriminate.
  assert (H7 : plain "EVENT") by reflexivity.
  split; [repeat split; assumption|].
  destruct (@emit_keeps_persistent_records second_throws 4 "EVENT" args w hs H1 H2 H3 H4)
    as (w' & He & Hc & Ho & Hk & _ & _ & _ & Hr).
  exists w'. split; [exact He|]. split; [exact Hc|]. split; [exact (Ho _ H5)|].
  split; [exact (Hk H6)|]. exact (Hr (or_introl H7)).
Defined.

(** ** Callbacks that change the array being dispatched *)

Section LiveArray.

Variable behaviour : cb -> payload -> prog.
Variable emit_rec : identifier -> payload -> world -> outcome bool.
Variable event : string.
Variable args : payload.

Lemma after_quiet_nil w : after_quiet behaviour args [] w = w.
Proof. unfold after_quiet, faults. simpl. rewrite !app_nil_r. apply world_eta. Qed.

(** The loop over a quiet stretch of the array, with steps to spare. *)
Lemma dispatch_quiet_prefix todo : forall done rest w n,
  Obj.get event (handlers w) = Some (done ++ todo ++ rest) ->
  all_quiet behaviour args todo ->
  dispatch behaviour emit_rec (List.length todo + n) event args (List.length done) w
  = dispatch behaviour emit_rec n event args (List.length (done ++ todo))
      (after_quiet behaviour args todo w).
Proof.
  induction todo as [|h t IH]; intros done rest w n Hg Hq.
  - simpl. now rewrite app_nil_r, after_quiet_nil.
  - change (List.length (h :: t) + n) with (S (List.length t + n)).
    simpl dispatch. change ((h :: t) ++ rest) with (h :: t ++ rest) in Hg.
    simpl property_key. rewrite (slot_of_own _ _ Hg), nth_error_middle.
    assert (Hh : quiet (behaviour (listener h) args) = true) by (apply Hq; now left).
    assert (Hq' : all_quiet behaviour args t) by (intros x Hx; apply Hq; now right).
    assert (Hd : S (List.length done) = List.length (done ++ [h]))
      by (rewrite length_app; simpl; lia).
    assert (Hl : done ++ h :: t = (done ++ [h]) ++ t) by now rewrite <- app_assoc.
    assert (Hg' : forall w', handlers w' = handlers w ->
              Obj.get event (handlers w') = Some ((done ++ [h]) ++ t ++ rest)).
    { intros w' ->. rewrite Hg. f_equal. now rewrite <- app_assoc. }
    destruct (behaviour (listener h) args) eqn:B; try discriminate; simpl exec;
      rewrite Hd, Hl, (IH (done ++ [h]) rest) by (auto; apply Hg'; reflexivity);
      f_equal; unfold after_quiet, faults; simpl; rewrite B; simpl;
      now rewrite <- !app_assoc.
Qed.

Lemma settle_fields k w :
  handlers (settle k w) = handlers w /\
  maxListeners (settle k w) = maxListeners w /\
  log (settle k w) = log w ++ fault k /\
  calls (settle k w) = calls w.
Proof. destruct k; simpl; rewrite ?app_nil_r; auto. Qed.

(** One round of the loop for a callback whose body ends in a quiet part. *)
Lemma dispatch_round n i w hs h k w1 :
  Obj.get event (handlers w) = Some hs ->
  nth_error hs i = Some h ->
  exec emit_rec (behaviour (listener h) args) (record_call (listener h) args w)
  = exec emit_rec k w1 ->
  quiet k = true ->
  dispatch behaviour emit_rec (S n) event args i w
  = dispatch behaviour emit_rec n event args (S i) (settle k w1).
Proof.
  intros Hg Hn He Hk. simpl dispatch. simpl property_key.
  rewrite (slot_of_own _ _ Hg), Hn, He.
  destruct k; try discriminate; reflexivity.
Qed.

(** The loop up to and including a callback [h] that follows a quiet stretch
    [pre] of the array. *)
Lemma dispatch_reach m pre h post k w1 w :
  Obj.get event (handlers w) = Some (pre ++ h :: post) ->
  all_quiet behaviour args pre ->
  exec emit_rec (behaviour (listener h) args)
    (record_call (listener h) args (after_quiet behaviour args pre w))
  = exec emit_rec k w1 ->
  quiet k = true ->
  dispatch behaviour emit_rec (List.length pre + S m) event args 0 w
  = dispatch behaviour emit_rec m event args (S (List.length pre)) (settle k w1).
Proof.
  intros Hg Hq He Hk.
  pose proof (@dispatch_quiet_prefix pre [] (h :: post) w (S m) Hg Hq) as Hp.
  change (List.length (@nil EventListener)) with 0 in Hp.
  change ([] ++ pre) with pre in Hp. rewrite Hp.
  apply (@dispatch_round m (List.length pre) _ (pre ++ h :: post) h k w1); auto.
  apply nth_error_middle.
Qed.

End LiveArray.

Lemma emit_from_dispatch behaviour f event args w :
  current event w <> [] ->
  forall r,
    dispatch behaviour (emit behaviour f) (S f) event args 0 w = r ->
    emit behaviour (S f) event args w
    = match r with
      | Returned _ w1 =>
          match slot_of event w1 with
          | IsArray hs1 => Returned true (assign event (filter persistent hs1) w1)
          | IsInherited _ => Threw (not_a_function "filter") w1
          | IsUndefined => Threw (type_error "filter") w1
          end
      | Threw error w1 => Threw error w1
      | OutOfFuel => OutOfFuel
      end.
Proof.
  intros Hcur r <-. rewrite (@emit_with_listeners behaviour f event args w Hcur).
  reflexivity.
Qed.

Lemma current_app_not_nil event w (pre post : list EventListener) h :
  Obj.get event (handlers w) = Some (pre ++ h :: post) -> current event w <> [].
Proof. unfold current. intros ->. now destruct pre. Qed.

(** X8: when a callback takes the last listeners of the event away while
    [emit] is dispatching it, by [off(event)] or, being the only listener, by
    [off(event, itself)], the loop condition reads [length] of [undefined],
    the name being none that [Object.prototype] defines: [emit] throws that
    [TypeError] to its caller and calls none of the listeners that came
    after. *)
Theorem emit_throws_when_event_is_emptied
    (behaviour : cb -> payload -> prog) (fuel : nat) (event : string)
    (args : payload) (w : world) (pre post : list EventListener)
    (h : EventListener) (target : option cb) (k : prog) :
  plain event ->
  Obj.get event (handlers w) = Some (pre ++ h :: post) ->
  all_quiet behaviour args pre ->
  behaviour (listener h) args = CallOff (Some (Name event)) target k ->
  quiet k = true ->
  target = None \/
  (target = Some (listener h) /\ pre = [] /\ post = [] /\ no_empty_entry w) ->
  S (List.length pre) < fuel ->
  exists w',
    emit behaviour fuel event args w = Threw (type_error "length") w' /\
    calls w' = calls w ++ map (invocation args) (pre ++ [h]) /\
    log w' = log w ++ faults behaviour args pre ++ fault k /\
    ~ In event (events w').
Proof.
  intros Hplain Hg Hq Hb Hk Htarget Hlen.
  destruct fuel as [|f]; [lia|].
  set (wc := record_call (listener h) args (after_quiet behaviour args pre w)).
  assert (Hoff : exists w1,
            off (Some (Name event)) target wc = Returned tt w1 /\
            Obj.get event (handlers w1) = None /\
            log w1 = log wc /\ calls w1 = calls wc).
  { destruct Htarget as [->|(-> & -> & -> & Hne)].
    - rewrite off_event_exact. eexists. split; [reflexivity|].
      split; [apply ObjFacts.get_delete_same | auto].
    - assert (Hne' : no_empty_entry wc) by exact Hne.
      rewrite (@off_event_listener event (listener h) wc Hne').
      change (handlers wc) with (handlers w). simpl in Hg. rewrite Hg.
      simpl findIndex. rewrite Nat.eqb_refl.
      eexists. split; [reflexivity|]. simpl.
      split; [apply ObjFacts.get_delete_same | auto]. }
  destruct Hoff as (w1 & Hoff & Hg1 & Hl1 & Hc1).
  assert (He : exec (emit behaviour f) (behaviour (listener h) args) wc
               = exec (emit behaviour f) k w1).
  { rewrite Hb. simpl. now rewrite Hoff. }
  destruct (settle_fields k w1) as (Hsh & _ & Hsl & Hsc).
  assert (Hd : dispatch behaviour (emit behaviour f) (S f) event args 0 w
               = Threw (type_error "length") (settle k w1)).
  { replace (S f) with (List.length pre + S (S (f - S (List.length pre)))) by lia.
    rewrite (@dispatch_reach behaviour (emit behaviour f) event args
               (S (f - S (List.length pre))) pre h post k w1 w Hg Hq He Hk).
    simpl. rewrite slot_of_plain; [reflexivity | exact Hplain |].
    now rewrite Hsh. }
  rewrite (@emit_from_dispatch behaviour f event args w
             (current_app_not_nil event w pre post h Hg) _ Hd).
  exists (settle k w1). split; [reflexivity|]. split; [|split].
  - rewrite Hsc, Hc1. unfold wc, after_quiet. simpl. now rewrite map_app, <- app_assoc.
  - rewrite Hsl, Hl1. unfold wc, after_quiet. simpl. now rewrite <- app_assoc.
  - apply ObjFacts.get_None_keys. unfold events in *. now rewrite Hsh.
Qed.

Lemma emit_throws_when_event_is_emptied_witness :
  let w := mkWorld [("EVENT", [mkListener 0 true])] 10 [] [] in
  let h := mkListener 0 true in
  (plain "EVENT" /\
   Obj.get "EVENT" (handlers w) = Some ([] ++ h :: []) /\
   all_quiet removes_itself [] [] /\
   removes_itself (listener h) [] = CallOff (Some (Name "EVENT")) (Some 0) Return /\
   quiet Return = true /\
   (Some 0 = None \/
    (Some 0 = Some (listener h) /\ @nil EventListener = [] /\
     @nil EventListener = [] /\ no_empty_entry w)) /\
   S (List.length (@nil EventListener)) < 2) /\
  exists w',
    emit removes_itself 2 "EVENT" [] w = Threw (type_error "length") w' /\
    calls w' = calls w ++ map (invocation []) ([] ++ [h]) /\
    log w' = log w ++ faults removes_itself [] [] ++ fault Return /\
    ~ In "EVENT" (events w').
Proof.
  intros w h.
  assert (H0 : plain "EVENT") by reflexivity.
  assert (H1 : Obj.get "EVENT" (handlers w) = Some ([] ++ h :: [])) by reflexivity.
  assert (H2 : all_quiet removes_itself [] []) by (intros x []).
  assert (H3 : removes_itself (listener h) []
               = CallOff (Some (Name "EVENT")) (Some 0) Return) by reflexivity.
  assert (H4 : quiet Return = true) by reflexivity.
  assert (H5 : Some 0 = None \/
               (Some 0 = Some (listener h) /\ @nil EventListener = [] /\
                @nil EventListener = [] /\ no_empty_entry w)).
  { right. repeat split. repeat constructor. discriminate. }
  assert (H6 : S (List.length (@nil EventListener)) < 2) by (simpl; lia).
  split; [repeat split; auto|].
  exact (@emit_throws_when_event_is_emptied removes_itself 2 "EVENT" [] w [] [] h
           (Some 0) Return H0 H1 H2 H3 H4 H5 H6).
Defined.

Lemma remove_first_app_skip cb0 (pre : list EventListener) h post :
  ~ In cb0 (map listener pre) -> listener h = cb0 ->
  remove_first cb0 (pre ++ h :: post) = pre ++ post.
Proof.
  intros Hno Hh. induction pre as [|x r IH]; simpl in *.
  - now rewrite Hh, Nat.eqb_refl.
  - destruct (Nat.eqb_spec (listener x) cb0) as [E|_]; [exfalso; auto|].
    rewrite IH; auto.
Qed.

Lemma findIndex_found cb0 (pre : list EventListener) h post :
  listener h = cb0 -> findIndex cb0 (pre ++ h :: post) <> None.
Proof.
  intros Hh F. apply (proj1 (findIndex_None _ _) F h); [|exact Hh].
  apply in_or_app. right. now left.
Qed.

(** X9: a callback that removes itself with [off(event, itself)] while it is
    being dispatched moves the records after it one place down, and the loop,
    which goes on with the next index, passes over the record that followed
    it: that listener is not called by this [emit], although it stays
    registered. *)
Theorem emit_skips_listener_after_self_removal
    (behaviour : cb -> payload -> prog) (fuel : nat) (event : string)
    (args : payload) (w : world) (pre post : list EventListener)
    (h next : EventListener) (k : prog) :
  no_empty_entry w ->
  Obj.get event (handlers w) = Some (pre ++ h :: next :: post) ->
  all_quiet behaviour args pre ->
  all_quiet behaviour args post ->
  ~ In (listener h) (map listener pre) ->
  behaviour (listener h) args = CallOff (Some (Name event)) (Some (listener h)) k ->
  quiet k = true ->
  List.length (pre ++ h :: next :: post) < fuel ->
  exists w',
    emit behaviour fuel event args w = Returned true w' /\
    calls w' = calls w ++ map (invocation args) (pre ++ h :: post) /\
    current event w' = filter persistent (pre ++ next :: post).
Proof.
  intros Hne Hg Hq Hqp Hfirst Hb Hk Hlen.
  destruct fuel as [|f]; [lia|].
  rewrite length_app in Hlen. simpl in Hlen.
  set (wc := record_call (listener h) args (after_quiet behaviour args pre w)).
  set (w1 := with_handlers (Obj.set event (pre ++ next :: post)) wc).
  assert (Hoff : off (Some (Name event)) (Some (listener h)) wc = Returned tt w1).
  { assert (Hne' : no_empty_entry wc) by exact Hne.
    rewrite (@off_event_listener event (listener h) wc Hne').
    change (handlers wc) with (handlers w). rewrite Hg.
    destruct (findIndex (listener h) (pre ++ h :: next :: post)) as [index|] eqn:F;
      [|now apply findIndex_found in F].
    rewrite (splice_findIndex _ _ F), remove_first_app_skip by auto.
    destruct pre; reflexivity. }
  assert (He : exec (emit behaviour f) (behaviour (listener h) args) wc
               = exec (emit behaviour f) k w1).
  { rewrite Hb. simpl. now rewrite Hoff. }
  destruct (settle_fields k w1) as (Hsh & _ & _ & Hsc).
  assert (Hg1 : Obj.get event (handlers (settle k w1))
                = Some ((pre ++ [next]) ++ post)).
  { rewrite Hsh. unfold w1. simpl. rewrite ObjFacts.get_set_same.
    now rewrite <- app_assoc. }
  assert (Hd : dispatch behaviour (emit behaviour f) (S f) event args 0 w
               = Returned tt (after_quiet behaviour args post (settle k w1))).
  { replace (S f) with (List.length pre + S (f - List.length pre)) by lia.
    rewrite (@dispatch_reach behaviour (emit behaviour f) event args
               (f - List.length pre) pre h (next :: post) k w1 w Hg Hq He Hk).
    replace (S (List.length pre)) with (List.length (pre ++ [next]))
      by (rewrite length_app; simpl; lia).
    apply dispatch_quiet; auto. lia. }
  rewrite (@emit_from_dispatch behaviour f event args w
             (current_app_not_nil event w pre (next :: post) h Hg) _ Hd).
  rewrite (@slot_of_own event ((pre ++ [next]) ++ post)
             (after_quiet behaviour args post (settle k w1)) Hg1).
  eexists. split; [reflexivity|]. split.
  - destruct (assign_fields event (filter persistent ((pre ++ [next]) ++ post))
                (after_quiet behaviour args post (settle k w1))) as (_ & _ & Hc).
    rewrite Hc. unfold after_quiet at 1. simpl calls. rewrite Hsc.
    unfold w1, wc, after_quiet. simpl. rewrite !map_app. simpl.
    now rewrite <- !app_assoc.
  - rewrite current_assign. now rewrite <- app_assoc.
Qed.

Lemma emit_skips_listener_after_self_removal_witness :
  let w := mkWorld [("EVENT", [mkListener 0 true; mkListener 1 false; mkListener 2 true])]
             10 [] [] in
  let h := mkListener 0 true in
  let next := mkListener 1 false in
  let post := [mkListener 2 true] in
  (no_empty_entry w /\
   Obj.get "EVENT" (handlers w) = Some ([] ++ h :: next :: post) /\
   all_quiet removes_itself [] [] /\
   all_quiet removes_itself [] post /\
   ~ In (listener h) (map listener []) /\
   removes_itself (listener h) [] = CallOff (Some (Name "EVENT")) (Some (listener h)) Return /\
   quiet Return = true /\
   List.length ([] ++ h :: next :: post) < 4) /\
  exists w',
    emit removes_itself 4 "EVENT" [] w = Returned true w' /\
    calls w' = calls w ++ map (invocation []) ([] ++ h :: post) /\
    current "EVENT" w' = filter persistent ([] ++ next :: post).
Proof.
  intros w h next post.
  assert (H0 : no_empty_entry w) by (repeat constructor; discriminate).
  assert (H1 : Obj.get "EVENT" (handlers w) = Some ([] ++ h :: next :: post))
    by reflexivity.
  assert (H2 : all_quiet removes_itself [] []) by (intros x []).
  assert (H3 : all_quiet removes_itself [] post) by (intros x [<-|[]]; reflexivity).
  assert (H4 : ~ In (listener h) (map listener [])) by (intros []).
  assert (H5 : removes_itself (listener h) []
               = CallOff (Some (Name "EVENT")) (Some (listener h)) Return) by reflexivity.
  assert (H6 : quiet Return = true) by reflexivity.
  assert (H7 : List.length ([] ++ h :: next :: post) < 4) by (simpl; lia).
  split; [repeat split; auto|].
  exact (@emit_skips_listener_after_self_removal removes_itself 4 "EVENT" [] w
           [] post h next Return H0 H1 H2 H3 H4 H5 H6 H7).
Defined.

Section Prepending.

Variable behaviour : cb -> payload -> prog.
Variable emit_rec : identifier -> payload -> world -> outcome bool.
Variable event : string.
Variable args : payload.
Variable h : EventListener.
Variable c : cb.
Variable k : prog.
Hypothesis h_prepends :
  behaviour (listener h) args = CallOn event c true k \/
  behaviour (listener h) args = CallOnce event c true k.
Hypothesis k_quiet : quiet k = true.

(** Each round puts a record at the head, so the callback that was at index
    [i] is at index [i + 1] when the loop gets there. *)
Lemma dispatch_prepending steps : forall i w hs,
  Obj.get event (handlers w) = Some hs ->
  nth_error hs i = Some h ->
  dispatch behaviour emit_rec steps event args i w = OutOfFuel.
Proof.
  induction steps as [|n IH]; intros i w hs Hg Hn; [reflexivity|].
  set (wc := record_call (listener h) args w).
  assert (Hcur : current event wc = hs) by (unfold current; simpl; now rewrite Hg).
  assert (Hown : plain (property_key event)
                 \/ Obj.get (property_key event) (handlers wc) <> None).
  { right. simpl. rewrite Hg. discriminate. }
  destruct h_prepends as [Hb|Hb].
  - rewrite (@dispatch_round behaviour emit_rec event args n i w hs h k
               (on_array event c true wc) Hg Hn);
      [|rewrite Hb; simpl exec; fold wc; now rewrite (@on_returns (Name event) c true wc Hown)
       | exact k_quiet].
    apply IH with (hs := mkListener c true :: hs); [|exact Hn].
    destruct (settle_fields k (on_array event c true wc)) as (-> & _).
    now rewrite get_on, Hcur.
  - rewrite (@dispatch_round behaviour emit_rec event args n i w hs h k
               (once_array event c true wc) Hg Hn);
      [|rewrite Hb; simpl exec; fold wc; now rewrite (@once_returns (Name event) c true wc Hown)
       | exact k_quiet].
    apply IH with (hs := mkListener c false :: hs); [|exact Hn].
    destruct (settle_fields k (once_array event c true wc)) as (-> & _).
    now rewrite get_once, Hcur.
Qed.

Lemma dispatch_prepending_after pre post steps w :
  Obj.get event (handlers w) = Some (pre ++ h :: post) ->
  all_quiet behaviour args pre ->
  dispatch behaviour emit_rec steps event args 0 w = OutOfFuel.
Proof.
  intros Hg Hq. destruct (Nat.le_gt_cases steps (List.length pre)) as [Hle|Hgt].
  - assert (Hsplit : pre ++ h :: post
                     = [] ++ firstn steps pre ++ (skipn steps pre ++ h :: post)).
    { simpl. now rewrite app_assoc, firstn_skipn. }
    rewrite Hsplit in Hg.
    assert (Hq' : all_quiet behaviour args (firstn steps pre)).
    { intros x Hx. apply Hq. rewrite <- (firstn_skipn steps pre).
      apply in_or_app. now left. }
    pose proof (@dispatch_quiet_prefix behaviour emit_rec event args
                  (firstn steps pre) [] _ w 0 Hg Hq') as Hp.
    rewrite Nat.add_0_r, firstn_length_le in Hp by exact Hle.
    exact Hp.
  - replace steps with (List.length pre + (steps - List.length pre)) by lia.
    pose proof (@dispatch_quiet_prefix behaviour emit_rec event args
                  pre [] (h :: post) w (steps - List.length pre) Hg Hq) as Hp.
    change (List.length (@nil EventListener)) with 0 in Hp. rewrite Hp.
    apply dispatch_prepending with (hs := pre ++ h :: post); [exact Hg|].
    apply nth_error_middle.
Qed.

End Prepending.

(** X10: a callback that registers a listener at the head of the event being
    dispatched ([on] or [once] with [prepend]) is itself moved one place up
    and is called again by the next round, and so on: [emit] does not return,
    however many steps it is given. *)
Theorem emit_never_returns_when_listener_prepends
    (behaviour : cb -> payload -> prog) (event : string) (args : payload)
    (w : world) (pre post : list EventListener) (h : EventListener)
    (c : cb) (k : prog) :
  Obj.get event (handlers w) = Some (pre ++ h :: post) ->
  all_quiet behaviour args pre ->
  behaviour (listener h) args = CallOn event c true k \/
  behaviour (listener h) args = CallOnce event c true k ->
  quiet k = true ->
  forall fuel, emit behaviour fuel event args w = OutOfFuel.
Proof.
  intros Hg Hq Hb Hk fuel.
  pose proof (current_app_not_nil event w pre post h Hg) as Hcur.
  destruct fuel as [|f].
  - simpl. unfold emit_body. simpl property_key. rewrite (slot_of_own _ _ Hg).
    now destruct pre.
  - apply (@emit_from_dispatch behaviour f event args w Hcur OutOfFuel).
    now apply dispatch_prepending_after with (h := h) (c := c) (k := k)
                                             (pre := pre) (post := post).
Qed.

Lemma emit_never_returns_when_listener_prepends_witness :
  let w := mkWorld [("EVENT", [mkListener 0 true; mkListener 2 true])] 10 [] [] in
  let h := mkListener 0 true in
  (Obj.get "EVENT" (handlers w) = Some ([] ++ h :: [mkListener 2 true]) /\
   all_quiet prepends_another [] [] /\
   (prepends_another (listener h) [] = CallOn "EVENT" 1 true Return \/
    prepends_another (listener h) [] = CallOnce "EVENT" 1 true Return) /\
   quiet Return = true) /\
  forall fuel, emit prepends_another fuel "EVENT" [] w = OutOfFuel.
Proof.
  intros w h.
  assert (H1 : Obj.get "EVENT" (handlers w) = Some ([] ++ h :: [mkListener 2 true]))
    by reflexivity.
  assert (H2 : all_quiet prepends_another [] []) by (intros x []).
  assert (H3 : prepends_another (listener h) [] = CallOn "EVENT" 1 true Return \/
               prepends_another (listener h) [] = CallOnce "EVENT" 1 true Return)
    by (left; reflexivity).
  assert (H4 : quiet Return = true) by reflexivity.
  split; [auto|].
  exact (@emit_never_returns_when_listener_prepends prepends_another "EVENT" [] w
           [] [mkListener 2 true] h 1 Return H1 H2 H3 H4).
Defined.

(** ** A callback that emits another event *)

Lemma emit_quiet_any behaviour fuel (event : string) args w :
  all_quiet behaviour args (current event w) ->
  List.length (current event w) < fuel ->
  exists res w',
    emit behaviour fuel event args w
    = match res with
      | EmitReturned b => Returned b w'
      | EmitThrew error => Threw error w'
      end /\
    calls w' = calls w ++ map (invocation args) (current event w) /\
    current event w' = filter persistent (current event w) /\
    (forall event', event' <> event ->
       Obj.get event' (handlers w') = Obj.get event' (handlers w)).
Proof.
  intros Hq Hlen. destruct (current event w) as [|h r] eqn:Hcur.
  - destruct (slot_of event w) as [hs|v|] eqn:Hs.
    + exists (EmitReturned false), w. split.
      * apply emit_no_listeners; [|exact Hcur]. right.
        unfold slot_of in Hs. destruct (Obj.get event (handlers w)); [discriminate|].
        destruct (object_prototype event); discriminate.
      * simpl. rewrite app_nil_r. auto.
    + destruct fuel as [|f]; [lia|].
      rewrite (@emit_inherited behaviour f (Name event) args w v Hs).
      destruct (nothing_to_call (IsInherited v)).
      * exists (EmitReturned false), w. split; [reflexivity|].
        simpl. rewrite app_nil_r. auto.
      * exists (EmitThrew (not_a_function "filter")),
               (log_errors (inherited_rounds v 0) (type_error "listener") w).
        split; [reflexivity|].
        destruct (log_errors_fields (inherited_rounds v 0) (type_error "listener") w)
          as (Hh & _ & Hc).
        split; [rewrite Hc; simpl; now rewrite app_nil_r|].
        split; [unfold current in *; now rewrite Hh|].
        intros event' _. now rewrite Hh.
    + exists (EmitReturned false), w. split.
      * apply emit_no_listeners; [|exact Hcur]. left.
        unfold slot_of in Hs. destruct (Obj.get event (handlers w)); [discriminate|].
        unfold plain. destruct (object_prototype event); [discriminate | reflexivity].
      * simpl. rewrite app_nil_r. auto.
  - assert (Hg : Obj.get event (handlers w) = Some (h :: r)).
    { unfold current in Hcur. destruct (Obj.get event (handlers w)); congruence. }
    rewrite (@emit_quiet_exact behaviour fuel event args w (h :: r) Hg
               ltac:(discriminate) Hq Hlen).
    exists (EmitReturned true). eexists. split; [reflexivity|].
    split; [apply assign_fields|]. split; [apply current_assign|].
    intros event' Hev. now rewrite get_assign_other.
Qed.

(** X11: a callback may call [emit] for another event: the listeners of that
    event are called then and there, between the callback and the listeners
    that follow it, the one-shot records of both events are gone afterwards,
    and the outer [emit] returns [true].  All other listeners involved only
    return or throw. *)
Theorem emit_runs_nested_emit_in_place
    (behaviour : cb -> payload -> prog) (fuel : nat) (event other : string)
    (args args2 : payload) (w : world) (pre post : list EventListener)
    (h : EventListener) (k : emit_result -> prog) :
  other <> event ->
  Obj.get event (handlers w) = Some (pre ++ h :: post) ->
  all_quiet behaviour args pre ->
  all_quiet behaviour args post ->
  all_quiet behaviour args2 (current other w) ->
  behaviour (listener h) args = CallEmit other args2 k ->
  (forall r, quiet (k r) = true) ->
  List.length (pre ++ h :: post) < fuel ->
  S (List.length (current other w)) < fuel ->
  exists w',
    emit behaviour fuel event args w = Returned true w' /\
    calls w' = calls w
               ++ map (invocation args) pre
               ++ invocation args h
                  :: map (invocation args2) (current other w)
               ++ map (invocation args) post /\
    current event w' = filter persistent (pre ++ h :: post) /\
    current other w' = filter persistent (current other w).
Proof.
  intros Hev Hg Hq Hqp Hq2 Hb Hk Hlen Hlen2.
  destruct fuel as [|f]; [lia|].
  rewrite length_app in Hlen. simpl in Hlen.
  set (wc := record_call (listener h) args (after_quiet behaviour args pre w)).
  assert (Hcur2 : current other wc = current other w) by reflexivity.
  destruct (@emit_quiet_any behaviour f other args2 wc)
    as (res & w1 & He1 & Hc1 & Ho1 & Hf1).
  { now rewrite Hcur2. }
  { rewrite Hcur2. lia. }
  rewrite Hcur2 in Hc1, Ho1.
  assert (He : exec (emit behaviour f) (behaviour (listener h) args) wc
               = exec (emit behaviour f) (k res) w1).
  { rewrite Hb. simpl. rewrite He1. now destruct res. }
  destruct (settle_fields (k res) w1) as (Hsh & _ & _ & Hsc).
  assert (Hg1 : Obj.get event (handlers (settle (k res) w1))
                = Some ((pre ++ [h]) ++ post)).
  { rewrite Hsh, Hf1 by congruence. change (handlers wc) with (handlers w).
    rewrite Hg. now rewrite <- app_assoc. }
  assert (Hd : dispatch behaviour (emit behaviour f) (S f) event args 0 w
               = Returned tt (after_quiet behaviour args post
                                (settle (k res) w1))).
  { replace (S f) with (List.length pre + S (f - List.length pre)) by lia.
    rewrite (@dispatch_reach behaviour (emit behaviour f) event args
               (f - List.length pre) pre h post (k res) w1 w
               Hg Hq He (Hk _)).
    replace (S (List.length pre)) with (List.length (pre ++ [h]))
      by (rewrite length_app; simpl; lia).
    apply dispatch_quiet; auto. lia. }
  rewrite (@emit_from_dispatch behaviour f event args w
             (current_app_not_nil event w pre post h Hg) _ Hd).
  rewrite (@slot_of_own event ((pre ++ [h]) ++ post)
             (after_quiet behaviour args post (settle (k res) w1)) Hg1).
  eexists. split; [reflexivity|].
  set (w2 := after_quiet behaviour args post (settle (k res) w1)).
  destruct (assign_fields event (filter persistent ((pre ++ [h]) ++ post)) w2)
    as (_ & _ & Hc).
  split; [|split].
  - rewrite Hc. unfold w2, after_quiet at 1. simpl calls. rewrite Hsc, Hc1.
    unfold wc, after_quiet. simpl. now rewrite <- !app_assoc.
  - rewrite current_assign. now rewrite <- app_assoc.
  - unfold current at 1. rewrite get_assign_other by exact Hev.
    change (handlers w2) with (handlers (settle (k res) w1)).
    rewrite Hsh. fold (current other w1). exact Ho1.
Qed.

Lemma emit_runs_nested_emit_in_place_witness :
  let w := mkWorld [("EVENT", [mkListener 0 true; mkListener 2 true]);
                    ("OTHER_EVENT", [mkListener 5 false])] 10 [] [] in
  let h := mkListener 0 true in
  let post := [mkListener 2 true] in
  let args := [VNumber 1] in
  let args2 := [VString "nested"] in
  ("OTHER_EVENT" <> "EVENT" /\
   Obj.get "EVENT" (handlers w) = Some ([] ++ h :: post) /\
   all_quiet emits_other args [] /\
   all_quiet emits_other args post /\
   all_quiet emits_other args2 (current "OTHER_EVENT" w) /\
   emits_other (listener h) args = CallEmit "OTHER_EVENT" args2 (fun _ => Return) /\
   (forall r : emit_result, quiet ((fun _ => Return) r) = true) /\
   List.length ([] ++ h :: post) < 3 /\
   S (List.length (current "OTHER_EVENT" w)) < 3) /\
  exists w',
    emit emits_other 3 "EVENT" args w = Returned true w' /\
    calls w' = calls w
               ++ map (invocation args) []
               ++ invocation args h
                  :: map (invocation args2) (current "OTHER_EVENT" w)
               ++ map (invocation args) post /\
    current "EVENT" w' = filter persistent ([] ++ h :: post) /\
    current "OTHER_EVENT" w' = filter persistent (current "OTHER_EVENT" w).
Proof.
  intros w h post args args2.
  assert (H0 : "OTHER_EVENT" <> "EVENT") by discriminate.
  assert (H1 : Obj.get "EVENT" (handlers w) = Some ([] ++ h :: post)) by reflexivity.
  assert (H2 : all_quiet emits_other args []) by (intros x []).
  assert (H3 : all_quiet emits_other args post) by (intros x [<-|[]]; reflexivity).
  assert (H4 : all_quiet emits_other args2 (current "OTHER_EVENT" w))
    by (intros x [<-|[]]; reflexivity).
  assert (H5 : emits_other (listener h) args
               = CallEmit "OTHER_EVENT" args2 (fun _ => Return)) by reflexivity.
  assert (H6 : forall r : emit_result, quiet ((fun _ => Return) r) = true)
    by reflexivity.
  assert (H7 : List.length ([] ++ h :: post) < 3) by (simpl; lia).
  assert (H8 : S (List.length (current "OTHER_EVENT" w)) < 3) by (simpl; lia).
  split; [repeat split; auto|].
  exact (@emit_runs_nested_emit_in_place emits_other 3 "EVENT" "OTHER_EVENT"
           args args2 w [] post h (fun _ => Return) H0 H1 H2 H3 H4 H5 H6 H7 H8).
Defined.

(** ** Registration and delivery *)

Lemma get_register_other event event' r w :
  event' <> event ->
  Obj.get event' (handlers (register_array event r w)) = Obj.get event' (handlers w).
Proof.
  intros Hne. rewrite handlers_register. now apply ObjFacts.get_set_other.
Qed.

Lemma current_register event r w :
  current event (register_array event r w)
  = insert (at_head r) (mkListener (callback r) (negb (one_shot r))) (current event w).
Proof.
  unfold current at 1. rewrite handlers_register. now rewrite ObjFacts.get_set_same.
Qed.

Lemma emit_quiet_plain behaviour fuel (event : string) args w :
  plain event \/ Obj.get event (handlers w) <> None ->
  all_quiet behaviour args (current event w) ->
  List.length (current event w) < fuel ->
  exists b w',
    emit behaviour fuel event args w = Returned b w' /\
    (b = true <-> current event w <> []) /\
    calls w' = calls w ++ map (invocation args) (current event w).
Proof.
  intros Hp Hq Hlen. destruct (current event w) as [|h r] eqn:Hcur.
  - exists false, w. split; [now apply emit_no_listeners|].
    split; [split; [discriminate | congruence]|].
    simpl. now rewrite app_nil_r.
  - assert (Hg : Obj.get event (handlers w) = Some (h :: r)).
    { unfold current in Hcur. destruct (Obj.get event (handlers w)); congruence. }
    rewrite (@emit_quiet_exact behaviour fuel event args w (h :: r) Hg
               ltac:(discriminate) Hq Hlen).
    eexists _, _. split; [reflexivity|].
    split; [split; [discriminate | reflexivity]|]. apply assign_fields.
Qed.

(** X12: under names that [Object.prototype] does not define, a listener
    registered under an event with [on] or [once] is called by the next
    [emit] of that event with the arguments of the call, before the earlier
    listeners when it was prepended and after them otherwise; the
    registration changes nothing for any other event, whose [emit] makes the
    same calls as before.  The listeners involved only return or throw. *)
Theorem registered_listener_is_called
    (behaviour : cb -> payload -> prog) (fuel : nat) (event event' : string)
    (r : registration) (args : payload) (w : world) :
  plain event ->
  plain event' ->
  quiet (behaviour (callback r) args) = true ->
  all_quiet behaviour args (current event w) ->
  all_quiet behaviour args (current event' w) ->
  event' <> event ->
  S (List.length (current event w)) < fuel ->
  List.length (current event' w) < fuel ->
  exists w0,
    register event r w = Returned tt w0 /\
    (exists w',
       emit behaviour fuel event args w0 = Returned true w' /\
       calls w'
       = calls w
         ++ (if at_head r
             then (callback r, args) :: map (invocation args) (current event w)
             else map (invocation args) (current event w) ++ [(callback r, args)])) /\
    (exists cbs,
       listeners event' w = Returned cbs w /\
       listeners event' w0 = Returned cbs w0) /\
    (exists b w1 w2,
       emit behaviour fuel event' args w = Returned b w1 /\
       emit behaviour fuel event' args w0 = Returned b w2 /\
       calls w2 = calls w1).
Proof.
  intros Hplain Hplain' Hr Hq Hq' Hne Hlen Hlen'.
  exists (register_array event r w).
  split; [apply (@register_returns (Name event)); now left|].
  assert (Hcur' : current event' (register_array event r w) = current event' w).
  { unfold current. now rewrite get_register_other. }
  destruct (register_fields event r w) as (_ & Hcalls).
  split; [|split].
  - assert (Hg : Obj.get event (handlers (register_array event r w))
                 = Some (insert (at_head r) (mkListener (callback r) (negb (one_shot r)))
                           (current event w))).
    { rewrite handlers_register. apply ObjFacts.get_set_same. }
    assert (Hqa : all_quiet behaviour args
                    (insert (at_head r) (mkListener (callback r) (negb (one_shot r)))
                       (current event w))).
    { intros x Hx. apply In_insert in Hx. destruct Hx as [->|Hx]; [exact Hr | auto]. }
    destruct (@emit_quiet_returns behaviour fuel event args _ _ Hg
                (@insert_not_nil _ _ _) Hqa) as (w' & He & _ & _ & _ & _ & Hc).
    { rewrite length_insert. exact Hlen. }
    exists w'. split; [exact He|]. rewrite Hc, Hcalls. f_equal.
    destruct (at_head r); simpl; [reflexivity|]. now rewrite map_app.
  - exists (callbacks event' w).
    rewrite !(@listeners_returns (Name event')) by now left.
    split; [reflexivity|]. simpl property_key. unfold callbacks. now rewrite Hcur'.
  - destruct (@emit_quiet_plain behaviour fuel event' args w (or_introl Hplain')
                Hq' Hlen') as (b & w1 & He1 & Hb1 & Hc1).
    destruct (@emit_quiet_plain behaviour fuel event' args (register_array event r w)
                (or_introl Hplain')) as (b2 & w2 & He2 & Hb2 & Hc2).
    { now rewrite Hcur'. }
    { now rewrite Hcur'. }
    rewrite Hcur' in Hb2, Hc2.
    assert (Hb : b2 = b).
    { destruct b, b2; try reflexivity.
      - apply (proj2 Hb2). now apply (proj1 Hb1).
      - symmetry. apply (proj2 Hb1). now apply (proj1 Hb2). }
    subst b2. exists b, w1, w2. split; [exact He1|]. split; [exact He2|].
    rewrite Hc2, Hc1, Hcalls. reflexivity.
Qed.

Lemma registered_listener_is_called_witness :
  let w := mkWorld [("EVENT", [mkListener 0 true]);
                    ("OTHER_EVENT", [mkListener 2 true])] 10 [] [] in
  let r := mkRegistration true 1 true in
  let args := [VString "payload"] in
  (plain "EVENT" /\ plain "OTHER_EVENT" /\
   quiet (second_throws (callback r) args) = true /\
   all_quiet second_throws args (current "EVENT" w) /\
   all_quiet second_throws args (current "OTHER_EVENT" w) /\
   "OTHER_EVENT" <> "EVENT" /\
   S (List.length (current "EVENT" w)) < 3 /\
   List.length (current "OTHER_EVENT" w) < 3) /\
  exists w0,
    register "EVENT" r w = Returned tt w0 /\
    (exists w',
       emit second_throws 3 "EVENT" args w0 = Returned true w' /\
       calls w'
       = calls w
         ++ (if at_head r
             then (callback r, args) :: map (invocation args) (current "EVENT" w)
             else map (invocation args) (current "EVENT" w) ++ [(callback r, args)])) /\
    (exists cbs,
       listeners "OTHER_EVENT" w = Returned cbs w /\
       listeners "OTHER_EVENT" w0 = Returned cbs w0) /\
    (exists b w1 w2,
       emit second_throws 3 "OTHER_EVENT" args w = Returned b w1 /\
       emit second_throws 3 "OTHER_EVENT" args w0 = Returned b w2 /\
       calls w2 = calls w1).
Proof.
  intros w r args.
  assert (P1 : plain "EVENT") by reflexivity.
  assert (P2 : plain "OTHER_EVENT") by reflexivity.
  assert (H1 : quiet (second_throws (callback r) args) = true) by reflexivity.
  assert (H2 : all_quiet second_throws args (current "EVENT" w))
    by (intros x [<-|[]]; reflexivity).
  assert (H3 : all_quiet second_throws args (current "OTHER_EVENT" w))
    by (intros x [<-|[]]; reflexivity).
  assert (H4 : "OTHER_EVENT" <> "EVENT") by discriminate.
  assert (H5 : S (List.length (current "EVENT" w)) < 3) by (simpl; lia).
  assert (H6 : List.length (current "OTHER_EVENT" w) < 3) by (simpl; lia).
  split; [repeat split; auto|].
  exact (@registered_listener_is_called second_throws 3 "EVENT" "OTHER_EVENT"
           r args w P1 P2 H1 H2 H3 H4 H5 H6).
Defined.

(** ** Names that [handlers] inherits *)

Lemma log_log_errors count error : forall w,
  log (log_errors count error w) = log w ++ repeat (LogError error) count.
Proof.
  induction count as [|n IH]; intros w; simpl; [now rewrite app_nil_r|].
  rewrite IH. simpl. now rewrite <- app_assoc.
Qed.

(** X13: under a name that [Object.prototype] defines and [handlers] does
    not own, nothing can be registered and nothing is called: [on] and
    [once] throw and leave the registry as it was, [on] after a warning when
    the inherited function has as many parameters as the maximum allows
    listeners; [listeners] throws; [emit] returns [false] over a function
    without parameters and otherwise throws, after one logged error for each
    index below the length of the function, calling no listener and leaving
    the registry as it was. *)
Theorem inherited_name_is_no_event
    (behaviour : cb -> payload -> prog) (fuel : nat) (event : identifier)
    (v : inherited) (l : cb) (prepend : bool) (args : payload) (w : world) :
  object_prototype (property_key event) = Some v ->
  Obj.get (property_key event) (handlers w) = None ->
  (exists w',
     on event l prepend w
     = Threw (not_a_function (if prepend then "unshift" else "push")) w' /\
     handlers w' = handlers w /\ calls w' = calls w /\
     log w' = log w
              ++ match v with
                 | InheritedFunction n =>
                     if (maxListeners w <=? n)%Z
                     then [LogWarn (exceeded_message (maxListeners w))] else []
                 | InheritedObject => []
                 end) /\
  once event l prepend w
  = Threw (not_a_function (if prepend then "unshift" else "push")) w /\
  listeners event w = Threw not_iterable w /\
  exists w',
    emit behaviour (S fuel) event args w
    = (if nothing_to_call (IsInherited v) then Returned false w'
       else Threw (not_a_function "filter") w') /\
    handlers w' = handlers w /\ calls w' = calls w /\
    log w' = log w
             ++ (if nothing_to_call (IsInherited v) then []
                 else repeat (LogError (type_error "listener")) (inherited_rounds v 0)).
Proof.
  intros Hp Hg.
  assert (Hs : slot_of (property_key event) w = IsInherited v).
  { unfold slot_of. now rewrite Hg, Hp. }
  split; [|split; [|split]].
  - exists (warn_inherited v w). unfold on. rewrite Hs.
    split; [reflexivity|]. destruct (warn_inherited_fields v w) as (Hh & _ & Hc).
    split; [exact Hh|]. split; [exact Hc|].
    destruct v as [n|]; simpl; [|now rewrite app_nil_r].
    destruct (maxListeners w <=? n)%Z; simpl; [reflexivity | now rewrite app_nil_r].
  - unfold once. now rewrite Hs.
  - unfold listeners. now rewrite Hs.
  - rewrite (@emit_inherited behaviour fuel event args w v Hs).
    destruct (nothing_to_call (IsInherited v)).
    + exists w. split; [reflexivity|]. now rewrite app_nil_r.
    + exists (log_errors (inherited_rounds v 0) (type_error "listener") w).
      split; [reflexivity|].
      destruct (log_errors_fields (inherited_rounds v 0) (type_error "listener") w)
        as (Hh & _ & Hc).
      split; [exact Hh|]. split; [exact Hc|]. apply log_log_errors.
Qed.

Lemma inherited_name_is_no_event_witness :
  let w := mkWorld [("EVENT", [mkListener 0 true])] 1 [] [] in
  (object_prototype (property_key (Name "hasOwnProperty")) = Some (InheritedFunction 1) /\
   Obj.get (property_key (Name "hasOwnProperty")) (handlers w) = None) /\
  (exists w',
     on "hasOwnProperty" 5 false w = Threw (not_a_function "push") w' /\
     handlers w' = handlers w /\
     log w' = [LogWarn "exceeded maximum (1) number of listeners"]) /\
  listeners "hasOwnProperty" w = Threw not_iterable w /\
  exists w',
    emit all_return 1 "hasOwnProperty" [] w = Threw (not_a_function "filter") w' /\
    calls w' = [] /\
    log w' = [LogError (type_error "listener")].
Proof.
  intros w.
  assert (H1 : object_prototype (property_key (Name "hasOwnProperty"))
               = Some (InheritedFunction 1)) by reflexivity.
  assert (H2 : Obj.get (property_key (Name "hasOwnProperty")) (handlers w) = None)
    by reflexivity.
  split; [auto|].
  destruct (@inherited_name_is_no_event all_return 0 (Name "hasOwnProperty")
              (InheritedFunction 1) 5 false [] w H1 H2)
    as ((w1 & Hon & Hh & _ & Hl) & _ & Hlist & (w2 & He & _ & Hc & Hl2)).
  split; [exists w1; auto|]. split; [exact Hlist|].
  exists w2. auto.
Defined.


(** ** No inherited name becomes an own property *)

Lemma own_plain_handlers w1 w2 :
  handlers w1 = handlers w2 -> own_plain w1 -> own_plain w2.
Proof. unfold own_plain, events. now intros ->. Qed.

Lemma own_plain_set key hs w :
  plain key \/ In key (events w) ->
  own_plain w -> own_plain (with_handlers (Obj.set key hs) w).
Proof.
  intros Hk Hw k Hin. unfold events in *. simpl in Hin.
  destruct (string_dec k key) as [->|Hne].
  - destruct Hk as [Hk|Hk]; [exact Hk | now apply Hw].
  - apply Hw. apply In_keys_get. apply In_keys_get in Hin.
    now rewrite ObjFacts.get_set_other in Hin.
Qed.

Lemma own_plain_delete key w :
  own_plain w -> own_plain (with_handlers (Obj.delete key) w).
Proof.
  intros Hw k Hin. unfold events in *. simpl in Hin.
  apply Hw. apply In_keys_get. apply In_keys_get in Hin.
  destruct (string_dec k key) as [->|Hne].
  - rewrite ObjFacts.get_delete_same in Hin. destruct Hin as [hs [=]].
  - now rewrite ObjFacts.get_delete_other in Hin.
Qed.

Lemma own_plain_assign key hs w :
  In key (events w) -> own_plain w -> own_plain (assign key hs w).
Proof.
  intros Hk Hw. unfold assign. destruct (Nat.eqb (List.length hs) 0).
  - apply own_plain_delete, own_plain_set; auto.
  - apply own_plain_set; auto.
Qed.

Lemma slot_of_cases key w :
  match slot_of key w with
  | IsArray _ => In key (events w)
  | IsInherited _ => True
  | IsUndefined => plain key
  end.
Proof.
  unfold slot_of, events, plain.
  destruct (Obj.get key (handlers w)) as [hs|] eqn:G.
  - apply In_keys_get. eauto.
  - now destruct (object_prototype key).
Qed.

Lemma on_own_plain event l prepend w :
  own_plain w -> outcome_has own_plain (on event l prepend w).
Proof.
  intros Hw. unfold on. pose proof (slot_of_cases (property_key event) w) as Hs.
  destruct (slot_of (property_key event) w) as [hs|v|]; unfold outcome_has.
  - apply (@own_plain_handlers
             (with_handlers (Obj.set (property_key event)
                               (insert prepend (mkListener l true)
                                  (current (property_key event) w))) w)).
    + simpl. symmetry. apply handlers_on.
    + apply own_plain_set; auto.
  - apply (own_plain_handlers (w1:=w)); [|exact Hw].
    symmetry. apply warn_inherited_fields.
  - apply (@own_plain_handlers
             (with_handlers (Obj.set (property_key event)
                               (insert prepend (mkListener l true)
                                  (current (property_key event) w))) w)).
    + simpl. symmetry. apply handlers_on.
    + apply own_plain_set; auto.
Qed.

Lemma once_own_plain event l prepend w :
  own_plain w -> outcome_has own_plain (once event l prepend w).
Proof.
  intros Hw. unfold once. pose proof (slot_of_cases (property_key event) w) as Hs.
  destruct (slot_of (property_key event) w) as [hs|v|]; unfold outcome_has.
  - apply (@own_plain_handlers
             (with_handlers (Obj.set (property_key event)
                               (insert prepend (mkListener l false)
                                  (current (property_key event) w))) w)).
    + simpl. symmetry. apply handlers_once.
    + apply own_plain_set; auto.
  - exact Hw.
  - apply (@own_plain_handlers
             (with_handlers (Obj.set (property_key event)
                               (insert prepend (mkListener l false)
                                  (current (property_key event) w))) w)).
    + simpl. symmetry. apply handlers_once.
    + apply own_plain_set; auto.
Qed.

Lemma off_loop_own_plain evs : forall l w,
  own_plain w -> outcome_has own_plain (off_loop evs l w).
Proof.
  induction evs as [|ev rest IH]; intros l w Hw; simpl; [exact Hw|].
  destruct l as [f|]; [|now apply IH, own_plain_delete].
  destruct (Obj.get ev (handlers w)) as [hs|] eqn:G; [|exact Hw].
  destruct (Nat.eqb (List.length hs) 0); [now apply IH, own_plain_delete|].
  destruct (findIndex f hs) as [index|]; [|now apply IH].
  apply (@own_plain_assign ev (splice index hs) w); [|exact Hw].
  apply In_keys_get. eauto.
Qed.

Lemma off_own_plain event l w :
  own_plain w -> outcome_has own_plain (off event l w).
Proof. unfold off. apply off_loop_own_plain. Qed.

Section OwnPlain.

Variable behaviour : cb -> payload -> prog.
Variable emit_rec : identifier -> payload -> world -> outcome bool.
Hypothesis emit_rec_own_plain :
  forall event args w, own_plain w -> outcome_has own_plain (emit_rec event args w).

Lemma exec_own_plain p : forall w,
  own_plain w -> outcome_has own_plain (exec emit_rec p w).
Proof.
  induction p as [| error | ev l prepend k IH | ev l prepend k IH
                  | ev l k IH | ev a k IH | ev k IH | k IH];
    intros w Hw; simpl.
  - exact Hw.
  - exact Hw.
  - pose proof (on_own_plain ev l prepend Hw) as Hr.
    destruct (on ev l prepend w) as [[] w'|error w'|]; simpl in Hr;
      [now apply IH | exact Hr | exact I].
  - pose proof (once_own_plain ev l prepend Hw) as Hr.
    destruct (once ev l prepend w) as [[] w'|error w'|]; simpl in Hr;
      [now apply IH | exact Hr | exact I].
  - pose proof (off_own_plain ev l Hw) as Hr.
    destruct (off ev l w) as [[] w'|error w'|]; simpl in Hr;
      [now apply IH | exact Hr | exact I].
  - pose proof (emit_rec_own_plain ev a Hw) as Hr.
    destruct (emit_rec ev a w) as [b w'|error w'|]; simpl in Hr; [| |exact I];
      now apply IH.
  - pose proof (listeners_world ev w) as Hr.
    destruct (listeners ev w) as [cbs w'|error w'|]; [| |exact I]; subst w'.
    + now apply IH.
    + exact Hw.
  - now apply IH.
Qed.

Lemma dispatch_own_plain steps : forall event args i w,
  own_plain w -> outcome_has own_plain (dispatch behaviour emit_rec steps event args i w).
Proof.
  induction steps as [|n IH]; intros event args i w Hw; simpl; [exact I|].
  destruct (slot_of (property_key event) w) as [hs|v|]; [| |exact Hw].
  2:{ simpl. apply (own_plain_handlers (w1:=w)); [|exact Hw].
      symmetry. apply log_errors_fields. }
  destruct (nth_error hs i) as [h|]; [|exact Hw].
  pose proof (@exec_own_plain (behaviour (listener h) args)
                (record_call (listener h) args w)
                (own_plain_handlers (w1:=w) _ eq_refl Hw)) as Hr.
  destruct (exec emit_rec (behaviour (listener h) args)
              (record_call (listener h) args w)) as [[] w'|error w'|];
    simpl in Hr; [| |exact I].
  - now apply IH.
  - apply IH. exact (own_plain_handlers (w1:=w') _ eq_refl Hr).
Qed.

Lemma emit_body_own_plain steps event args w :
  own_plain w -> outcome_has own_plain (emit_body behaviour emit_rec steps event args w).
Proof.
  intros Hw. unfold emit_body.
  destruct (nothing_to_call (slot_of (property_key event) w)); [exact Hw|].
  pose proof (dispatch_own_plain steps event args 0 Hw) as Hr.
  destruct (dispatch behaviour emit_rec steps event args 0 w) as [[] w1|error w1|];
    simpl in Hr; [| exact Hr | exact I].
  pose proof (slot_of_cases (property_key event) w1) as Hs.
  destruct (slot_of (property_key event) w1) as [hs1|v|]; [|exact Hr|exact Hr].
  simpl. now apply (@own_plain_assign (property_key event) (filter persistent hs1) w1).
Qed.

End OwnPlain.

Lemma emit_own_plain behaviour fuel : forall event args w,
  own_plain w -> outcome_has own_plain (emit behaviour fuel event args w).
Proof.
  induction fuel as [|f IH]; intros event args w Hw; simpl emit.
  - apply emit_body_own_plain; [|exact Hw]. intros; exact I.
  - apply emit_body_own_plain; [exact IH | exact Hw].
Qed.

(** X15: the names that [Object.prototype] defines never become events: a
    new emitter owns none of them, and [on], [once], [off] and [emit],
    whether they return or throw and whatever the callbacks do, leave
    [handlers] without them; so [events()] never lists one, and under such a
    name [listeners] throws and [emit] never returns [true]. *)
Theorem inherited_names_are_never_registered
    (behaviour : cb -> payload -> prog) (w : world) :
  own_plain w ->
  (forall maxListeners, own_plain (new_EventEmitter maxListeners)) /\
  (forall event l prepend, outcome_has own_plain (on event l prepend w)) /\
  (forall event l prepend, outcome_has own_plain (once event l prepend w)) /\
  (forall event l, outcome_has own_plain (off event l w)) /\
  (forall fuel event args, outcome_has own_plain (emit behaviour fuel event args w)) /\
  (forall event : string, ~ plain event ->
     ~ In event (events w) /\
     listeners event w = Threw not_iterable w /\
     forall fuel args w', emit behaviour fuel event args w <> Returned true w').
Proof.
  intros Hw.
  split; [intros m k []|].
  split; [intros; now apply on_own_plain|].
  split; [intros; now apply once_own_plain|].
  split; [intros; now apply off_own_plain|].
  split; [intros; now apply emit_own_plain|].
  intros event Hnp.
  assert (Hno : ~ In event (events w)) by (intros Hin; apply Hnp; now apply Hw).
  assert (Hg : Obj.get event (handlers w) = None) by now apply ObjFacts.get_None_keys.
  split; [exact Hno|]. split.
  - unfold listeners, slot_of. simpl property_key. rewrite Hg.
    unfold plain in Hnp. now destruct (object_prototype event).
  - intros fuel args w' He. apply emit_returned_inv in He.
    destruct He as [(Hb & _)|(_ & Hc & _)]; [discriminate|].
    apply Hc. unfold current. now rewrite Hg.
Qed.

Lemma inherited_names_are_never_registered_witness :
  let w := mkWorld [("EVENT", [mkListener 0 true])] 10 [] [] in
  (own_plain w /\ ~ plain "valueOf") /\
  outcome_has own_plain (on "valueOf" 1 false w) /\
  outcome_has own_plain (emit registers_another 3 "EVENT" [] w) /\
  ~ In "valueOf" (events w) /\
  listeners "valueOf" w = Threw not_iterable w.
Proof.
  intros w.
  assert (H : own_plain w) by (intros k [<-|[]]; reflexivity).
  assert (Hn : ~ plain "valueOf") by discriminate.
  split; [auto|].
  destruct (@inherited_names_are_never_registered registers_another w H)
    as (_ & Hon & _ & _ & He & Hinh).
  split; [apply Hon|]. split; [apply He|].
  destruct (Hinh "valueOf" Hn) as (Hno & Hl & _). auto.
Defined.
